(** * Intrusive strong/weak reference counting (hazel/coreten/core/intrusive_ptr.h)

    A shallow embedding of [coreten::intrusive_ptr], [coreten::weak_intrusive_ptr],
    their target base class and the [coreten::raw] helpers, together with the
    properties of the counter protocol.

    Memory is a finite map from addresses to the two counters embedded in each
    target.  Every member function is a state transformer over that map; the
    [std::atomic] read-modify-write operations are single steps of it. *)

From stdpp Require Import gmap strings.
From Stdlib Require Import ZArith Lia.

Local Open Scope Z_scope.

(** ** Machine integers *)

(** [size_t] is taken to be 64 bits wide; unsigned arithmetic wraps around. *)
Definition SIZE_BITS : Z := 64.
Definition SIZE_MAX : Z := 2 ^ SIZE_BITS - 1.
Definition size_t (z : Z) : Z := z mod 2 ^ SIZE_BITS.
Definition in_size_t (z : Z) : Prop := 0 <= z <= SIZE_MAX.

(** ** Memory *)

(** Addresses of targets; [nullptr] is address zero. *)
Abbreviation addr := N.
Definition nullptr : addr := 0%N.

(** class intrusive_ptr_target: the two embedded counters.  The class declares
    them as [__refcount] and [__weakcount]; the handle classes reach them as
    [refcount_] and [weakcount_].  They are the same two cells. *)
Record intrusive_ptr_target := Target {
  refcount_ : Z;
  weakcount_ : Z
}.

Definition target_in_range (t : intrusive_ptr_target) : Prop :=
  in_size_t (refcount_ t) /\ in_size_t (weakcount_ t).

(** Observable events on a target: a call of the virtual hook
    [release_resources()] and the deallocation performed by [delete]. *)
Inductive event :=
| ReleaseResources (p : addr)
| Delete (p : addr).

Record state := State {
  heap : gmap addr intrusive_ptr_target;
  trace : list event
}.

(** ** Outcomes of running code *)

(** A call either returns a value in a new state, stops the program inside
    [coretenCheckFail] (the function that detected the failure, the message
    and the state at that point), or has undefined behaviour because it
    dereferences an address that holds no target. *)
Inductive outcome (A : Type) :=
| Returned (a : A) (s : state)
| Aborted (func msg : string) (s : state)
| Undefined.
Arguments Returned {A} a s.
Arguments Aborted {A} func msg s.
Arguments Undefined {A}.

Definition M (A : Type) : Type := state -> outcome A.

Definition ret {A} (a : A) : M A := fun s => Returned a s.

Definition bind {A B} (m : M A) (k : A -> M B) : M B :=
  fun s =>
    match m s with
    | Returned a s' => k a s'
    | Aborted f msg s' => Aborted f msg s'
    | Undefined => Undefined
    end.

Declare Scope cpp_scope.
Delimit Scope cpp_scope with cpp.
Notation "x <- m ;; k" := (bind m (fun x => k))
  (at level 100, m at next level, right associativity) : cpp_scope.
Notation "m ;; k" := (bind m (fun _ => k))
  (at level 100, right associativity) : cpp_scope.
Local Open Scope cpp_scope.

(** ** Macros.h *)

(** detail::if_empty: return x if it is non-empty; otherwise return y. *)
Definition if_empty (x y : string) : string :=
  match x with
  | EmptyString => y
  | _ => x
  end.

(** Modelled from the spec: the body of [coretenCheckFail] is not among the
    sources, only its declaration [[[noreturn]] void coretenCheckFail(func,
    file, line, msg)].  Following the specification's propagation policy, a
    call stops execution at the point of detection with the message; it never
    returns and nothing of the calling frames runs afterwards.  (The comment
    above the declaration describes the failure as an exception being raised;
    the declaration itself only fixes that the call does not return.) *)
Definition coretenCheckFail {A} (func msg : string) : M A :=
  fun s => Aborted func msg s.

(** CORETEN_ENFORCE_MSG(cond, type, ...): the arguments joined by [listr], or
    the default text built from the stringified condition. *)
Definition CORETEN_ENFORCE_MSG (cond_text : string) (args : list string) : string :=
  if_empty (String.concat EmptyString args)
           ("Expected " +:+ cond_text +:+ " to be true, but got false.  ").

(** CORETEN_ENFORCE(cond, ...), expanded inside function [func]. *)
Definition CORETEN_ENFORCE (func : string) (cond : bool) (cond_text : string)
    (args : list string) : M unit :=
  if negb cond then coretenCheckFail func (CORETEN_ENFORCE_MSG cond_text args)
  else ret tt.

(** ** Access to the counters *)

Definition deref (p : addr) : M intrusive_ptr_target :=
  fun s =>
    match heap s !! p with
    | Some t => Returned t s
    | None => Undefined
    end.

Definition write (p : addr) (t : intrusive_ptr_target) : M unit :=
  fun s => Returned tt {| heap := <[p := t]> (heap s); trace := trace s |}.

Definition emit (e : event) : M unit :=
  fun s => Returned tt {| heap := heap s; trace := trace s ++ [e] |}.

Definition load_refcount (p : addr) : M Z :=
  t <- deref p ;; ret (refcount_ t).

Definition load_weakcount (p : addr) : M Z :=
  t <- deref p ;; ret (weakcount_ t).

Definition store_refcount (p : addr) (v : Z) : M unit :=
  t <- deref p ;; write p {| refcount_ := v; weakcount_ := weakcount_ t |}.

Definition store_weakcount (p : addr) (v : Z) : M unit :=
  t <- deref p ;; write p {| refcount_ := refcount_ t; weakcount_ := v |}.

(** namespace detail: the four counter operations.  Each is one atomic
    [fetch_add]/[fetch_sub] whose old value is adjusted to the new one. *)
Definition atomic_refcount_increment (p : addr) : M Z :=
  old <- load_refcount p ;;
  store_refcount p (size_t (old + 1)) ;;
  ret (size_t (old + 1)).

Definition atomic_weakcount_increment (p : addr) : M Z :=
  old <- load_weakcount p ;;
  store_weakcount p (size_t (old + 1)) ;;
  ret (size_t (old + 1)).

Definition atomic_refcount_decrement (p : addr) : M Z :=
  old <- load_refcount p ;;
  store_refcount p (size_t (old - 1)) ;;
  ret (size_t (old - 1)).

Definition atomic_weakcount_decrement (p : addr) : M Z :=
  old <- load_weakcount p ;;
  store_weakcount p (size_t (old - 1)) ;;
  ret (size_t (old - 1)).

(** std::atomic::compare_exchange_weak(expected, desired) on the strong
    counter.  [spurious] says whether this attempt fails although the stored
    value equals [expected].  The result is the success flag and the updated
    [expected]. *)
Definition compare_exchange_weak (p : addr) (expected desired : Z) (spurious : bool)
    : M (bool * Z) :=
  cur <- load_refcount p ;;
  if spurious || negb (cur =? expected) then ret (false, cur)
  else store_refcount p desired ;; ret (true, expected).

(** ** class intrusive_ptr_target *)

(** virtual void release_resources() {}: the base hook does nothing; the call
    itself is recorded. *)
Definition release_resources (p : addr) : M unit :=
  emit (ReleaseResources p).

(** virtual ~intrusive_ptr_target() *)
Definition destroy_target (p : addr) : M unit :=
  r <- load_refcount p ;;
  CORETEN_ENFORCE "~intrusive_ptr_target" (r =? 0) "__refcount.load() == 0"
    ["Attempted to declass an intrusive_ptr_target that still has an intrusive_ptr to it"] ;;
  w <- load_weakcount p ;;
  CORETEN_ENFORCE "~intrusive_ptr_target" ((w =? 0) || (w =? 1))
    "__weakcount.load() == 0 || __weakcount.load() == 1"
    ["Attempted to declass an intrusive_ptr_target that still has a weak_intrusive_ptr to it"].

Definition deallocate (p : addr) : M unit :=
  fun s => Returned tt {| heap := delete p (heap s); trace := trace s ++ [Delete p] |}.

(** The expression [delete target_]: run the destructor, then free. *)
Definition delete_ (p : addr) : M unit :=
  destroy_target p ;; deallocate p.

(** constexpr intrusive_ptr_target() noexcept : __refcount(0), __weakcount(0) *)
Definition fresh_target : intrusive_ptr_target :=
  {| refcount_ := 0; weakcount_ := 0 |}.

(** ** The null policy *)

Module NullType.
(** A policy class with a static [singleton()]. *)
Class t := { singleton : addr }.
End NullType.

(** detail::intrusive_target_default_null_type: [singleton()] is [nullptr]. *)
#[export] Instance intrusive_target_default_null_type : NullType.t :=
  {| NullType.singleton := nullptr |}.

(** detail::assign_ptr<Target, toNullType, fromNullType> (the handle classes
    call it as [assign_ptr_]): the sentinel of the source policy becomes the
    sentinel of the destination policy, any other address is kept. *)
Definition assign_ptr (toNullType fromNullType : NullType.t) (rhs : addr) : addr :=
  if (@NullType.singleton fromNullType =? rhs)%N then @NullType.singleton toNullType
  else rhs.

(** [new Target(args...)]: take an address that holds no target (and is not
    the sentinel), run the base-class constructor, then the body of the
    derived constructor, which is a parameter. *)
Definition alloc `{NullType.t} (s : state) : addr :=
  fresh ({[ NullType.singleton ]} ∪ dom (heap s)).

Definition new_ `{NullType.t} (ctor : addr -> M unit) : M addr :=
  fun s =>
    let p := alloc s in
    (write p fresh_target ;; ctor p ;; ret p) s.

(** ** class intrusive_ptr<Target, NullType> *)

Module intrusive_ptr.

(** The only data member is [Target* target_]. *)
Record t := mk { target_ : addr }.

Section with_null_type.
Context `{NT : NullType.t}.

Definition is_null (p : addr) : bool := (p =? NullType.singleton)%N.

(** void retain_() *)
Definition retain_ (this : t) : M unit :=
  if negb (is_null (target_ this)) then
    new_refcount <- atomic_refcount_increment (target_ this) ;;
    CORETEN_ENFORCE "retain_" (negb (new_refcount =? 1)) "new_refcount != 1"
      ["intrusive_ptr: Cannot increase refcount after it reached zero."]
  else ret tt.

(** void reset_() noexcept; the result is the handle after the call. *)
Definition reset_ (this : t) : M t :=
  (if negb (is_null (target_ this)) then
     n <- atomic_refcount_decrement (target_ this) ;;
     if n =? 0 then
       release_resources (target_ this) ;;
       w <- load_weakcount (target_ this) ;;
       if w =? 1 then delete_ (target_ this)
       else
         n' <- atomic_weakcount_decrement (target_ this) ;;
         if n' =? 0 then delete_ (target_ this) else ret tt
     else ret tt
   else ret tt) ;;
  ret (mk NullType.singleton).

(** explicit intrusive_ptr(Target* target, raw::DontIncreaseRefcount) *)
Definition from_raw_dont_increase (target : addr) : t := mk target.

(** explicit intrusive_ptr(Target* target): raises both counters, with no
    assertion. *)
Definition from_raw (target : addr) : M t :=
  let this := from_raw_dont_increase target in
  (if negb (is_null (target_ this)) then
     atomic_refcount_increment (target_ this) ;;
     atomic_weakcount_increment (target_ this) ;;
     ret tt
   else ret tt) ;;
  ret this.

(** intrusive_ptr() noexcept *)
Definition default : t := from_raw_dont_increase NullType.singleton.

(** intrusive_ptr(intrusive_ptr&& rhs) noexcept: the new handle and [rhs]
    after the move. *)
Definition move (rhs : t) : t * t := (mk (target_ rhs), mk NullType.singleton).

(** intrusive_ptr(const intrusive_ptr& rhs) *)
Definition copy (rhs : t) : M t :=
  let this := mk (target_ rhs) in
  retain_ this ;; ret this.

(** ~intrusive_ptr() noexcept *)
Definition destructor (this : t) : M t := reset_ this.

Definition get (this : t) : addr := target_ this.

Definition defined (this : t) : bool := negb (is_null (target_ this)).

(** void reset() noexcept *)
Definition reset (this : t) : M t := reset_ this.

(** void swap(intrusive_ptr& rhs) noexcept: [this] and [rhs] afterwards. *)
Definition swap (this rhs : t) : t * t :=
  let tmp := target_ this in
  (mk (target_ rhs), mk tmp).

Definition use_count (this : t) : M Z :=
  if is_null (target_ this) then ret 0
  else load_refcount (target_ this).

Definition weak_use_count (this : t) : M Z :=
  if is_null (target_ this) then ret 0
  else load_weakcount (target_ this).

Definition unique (this : t) : M bool :=
  n <- use_count this ;; ret (n =? 1).

(** Target* release() noexcept: the returned address and the handle
    afterwards. *)
Definition release (this : t) : M (addr * t) :=
  let result := target_ this in
  ret (result, mk NullType.singleton).

(** static intrusive_ptr reclaim(Target* owning_ptr) *)
Definition reclaim (owning_ptr : addr) : M t :=
  ret (from_raw_dont_increase owning_ptr).

(** static intrusive_ptr make(Args&&... args); [ctor] is the body of the
    target's constructor. *)
Definition make (ctor : addr -> M unit) : M t :=
  p <- new_ ctor ;;
  let result := from_raw_dont_increase p in
  ok <- (r <- load_refcount (target_ result) ;;
         if r =? 0 then w <- load_weakcount (target_ result) ;; ret (w =? 0)
         else ret false) ;;
  CORETEN_ENFORCE "make" ok
    "result.target_->refcount_ == 0 && result.target_->weakcount_ == 0"
    ["intrusive_ptr: Newly-created target had non-zero refcounts. Does its constructor do something strange like incref or create ";
     "an intrusive_ptr from `this`?"] ;;
  store_refcount (target_ result) 1 ;;
  store_weakcount (target_ result) 1 ;;
  ret result.

(** static intrusive_ptr unsafe_reclaim_from_nonowning(Target* raw_ptr) *)
Definition unsafe_reclaim_from_nonowning (raw_ptr : addr) : M t :=
  ok <- (if is_null raw_ptr then ret true
         else r <- load_refcount raw_ptr ;; ret (r >? 0)) ;;
  CORETEN_ENFORCE "unsafe_reclaim_from_nonowning" ok
    "raw_ptr == NullType::singleton() || raw_ptr->refcount_.load() > 0"
    ["intrusive_ptr can only reclaim pointers that are owned by someone"] ;;
  ptr <- reclaim raw_ptr ;;
  retain_ ptr ;;
  ret ptr.

(** operator== and operator< compare the addresses. *)
Definition eqb (lhs rhs : t) : bool := (get lhs =? get rhs)%N.
Definition ltb (lhs rhs : t) : bool := (get lhs <? get rhs)%N.

(** operator!= *)
Definition neqb (lhs rhs : t) : bool := negb (eqb lhs rhs).

(** intrusive_ptr& operator=(intrusive_ptr&& rhs) & noexcept, through the
    template it forwards to: [tmp] is move-constructed from [rhs], swapped
    with [this], and destroyed on return.  [this] and [rhs] are two distinct
    objects; the result is both of them afterwards. *)
Definition move_assign (this rhs : t) : M (t * t) :=
  let m := move rhs in
  let sw := swap this (fst m) in
  destructor (snd sw) ;;
  ret (fst sw, snd m).

(** The same operator when [rhs] is the object [this] itself: the move
    constructor empties it before the swap gives the address back. *)
Definition move_assign_self (this : t) : M t :=
  let m := move this in
  let sw := swap (snd m) (fst m) in
  destructor (snd sw) ;;
  ret (fst sw).

(** intrusive_ptr& operator=(const intrusive_ptr& rhs) & noexcept, through
    the template it forwards to: [tmp] is copy-constructed from [rhs], swapped
    with [this], and destroyed on return.  [rhs] is only read, so the
    definition also covers [rhs] being [this]. *)
Definition copy_assign (this rhs : t) : M t :=
  tmp <- copy rhs ;;
  let sw := swap this tmp in
  destructor (snd sw) ;;
  ret (fst sw).

End with_null_type.

(** The converting constructors, from a handle with null policy [From] to one
    with null policy [To]. *)
Definition convert_move (To From : NullType.t) (rhs : t) : t * t :=
  (mk (assign_ptr To From (target_ rhs)), mk (@NullType.singleton From)).

Definition convert_copy (To From : NullType.t) (rhs : t) : M t :=
  let this := mk (assign_ptr To From (target_ rhs)) in
  @retain_ To this ;; ret this.

End intrusive_ptr.

(** ** class weak_intrusive_ptr<Target, NullType> *)

Module weak_intrusive_ptr.

Record t := mk { target_ : addr }.

Section with_null_type.
Context `{NT : NullType.t}.

Definition is_null (p : addr) : bool := (p =? NullType.singleton)%N.

(** void retain_() *)
Definition retain_ (this : t) : M unit :=
  if negb (is_null (target_ this)) then
    new_weakcount <- atomic_weakcount_increment (target_ this) ;;
    CORETEN_ENFORCE "retain_" (negb (new_weakcount =? 1)) "new_weakcount != 1"
      ["weak_intrusive_ptr: Cannot increase weakcount after it reached zero."]
  else ret tt.

(** void reset_() noexcept *)
Definition reset_ (this : t) : M t :=
  (if negb (is_null (target_ this)) then
     n <- atomic_weakcount_decrement (target_ this) ;;
     if n =? 0 then delete_ (target_ this) else ret tt
   else ret tt) ;;
  ret (mk NullType.singleton).

(** constexpr explicit weak_intrusive_ptr(Target* target) *)
Definition from_raw (target : addr) : t := mk target.

(** explicit weak_intrusive_ptr(const intrusive_ptr<Target, NullType>& ptr) *)
Definition from_strong (ptr : intrusive_ptr.t) : M t :=
  let this := from_raw (intrusive_ptr.get ptr) in
  retain_ this ;; ret this.

(** weak_intrusive_ptr(weak_intrusive_ptr&& rhs) noexcept *)
Definition move (rhs : t) : t * t := (mk (target_ rhs), mk NullType.singleton).

(** weak_intrusive_ptr(const weak_intrusive_ptr& rhs) *)
Definition copy (rhs : t) : M t :=
  let this := mk (target_ rhs) in
  retain_ this ;; ret this.

(** ~weak_intrusive_ptr() noexcept *)
Definition destructor (this : t) : M t := reset_ this.

(** void reset() noexcept *)
Definition reset (this : t) : M t := reset_ this.

Definition swap (this rhs : t) : t * t :=
  let tmp := target_ this in
  (mk (target_ rhs), mk tmp).

Definition _unsafe_get_target (this : t) : addr := target_ this.

(** size_t use_count(): the strong counter, not the weak one. *)
Definition use_count (this : t) : M Z :=
  if is_null (target_ this) then ret 0
  else load_refcount (target_ this).

Definition weak_use_count (this : t) : M Z :=
  if is_null (target_ this) then ret 0
  else load_weakcount (target_ this).

Definition expired (this : t) : M bool :=
  n <- use_count this ;; ret (n =? 0).

(** The do-while loop of [lock()].  [refcount] is the local variable that
    [compare_exchange_weak] refreshes on failure; [spurious] lists, attempt
    by attempt, whether the exchange fails spuriously (no failure once the
    list is used up).  [None] stands for a loop still running when the
    fuel is spent. *)
Fixpoint lock_loop (fuel : nat) (spurious : list bool) (this : t) (refcount : Z)
    : M (option intrusive_ptr.t) :=
  match fuel with
  | O => ret None
  | S fuel' =>
      if refcount =? 0 then ret (Some intrusive_ptr.default)
      else
        r <- compare_exchange_weak (target_ this) refcount (size_t (refcount + 1))
               (hd false spurious) ;;
        if fst r then
          ret (Some (intrusive_ptr.from_raw_dont_increase (target_ this)))
        else lock_loop fuel' (tl spurious) this (snd r)
  end.

(** intrusive_ptr<Target, NullType> lock() const noexcept *)
Definition lock (fuel : nat) (spurious : list bool) (this : t)
    : M (option intrusive_ptr.t) :=
  e <- expired this ;;
  if e then ret (Some intrusive_ptr.default)
  else
    refcount <- load_refcount (target_ this) ;;
    lock_loop fuel spurious this refcount.

(** Target* release() noexcept *)
Definition release (this : t) : M (addr * t) :=
  let result := target_ this in
  ret (result, mk NullType.singleton).

(** static weak_intrusive_ptr reclaim(Target* owning_weak_ptr) *)
Definition reclaim (owning_weak_ptr : addr) : M t :=
  ok <- (if is_null owning_weak_ptr then ret true
         else
           w <- load_weakcount owning_weak_ptr ;;
           if w >? 1 then ret true
           else
             r <- load_refcount owning_weak_ptr ;;
             if r =? 0 then w' <- load_weakcount owning_weak_ptr ;; ret (w' >? 0)
             else ret false) ;;
  CORETEN_ENFORCE "reclaim" ok
    "owning_weak_ptr == NullType::singleton() || owning_weak_ptr->weakcount_.load() > 1 || (owning_weak_ptr->refcount_.load() == 0 && owning_weak_ptr->weakcount_.load() > 0)"
    ["weak_intrusive_ptr: Can only weak_intrusive_ptr::reclaim() owning pointers that were created using weak_intrusive_ptr::release()."] ;;
  ret (from_raw owning_weak_ptr).

Definition eqb (lhs rhs : t) : bool := (target_ lhs =? target_ rhs)%N.
Definition ltb (lhs rhs : t) : bool := (target_ lhs <? target_ rhs)%N.

(** operator!= *)
Definition neqb (lhs rhs : t) : bool := negb (eqb lhs rhs).

(** weak_intrusive_ptr& operator=(weak_intrusive_ptr&& rhs) & noexcept, for
    two distinct objects. *)
Definition move_assign (this rhs : t) : M (t * t) :=
  let m := move rhs in
  let sw := swap this (fst m) in
  destructor (snd sw) ;;
  ret (fst sw, snd m).

(** weak_intrusive_ptr& operator=(const weak_intrusive_ptr& rhs) & noexcept *)
Definition copy_assign (this rhs : t) : M t :=
  tmp <- copy rhs ;;
  let sw := swap this tmp in
  destructor (snd sw) ;;
  ret (fst sw).

(** weak_intrusive_ptr& operator=(const intrusive_ptr<Target, NullType>& rhs) & noexcept *)
Definition assign_from_strong (this : t) (rhs : intrusive_ptr.t) : M t :=
  tmp <- from_strong rhs ;;
  let sw := swap this tmp in
  destructor (snd sw) ;;
  ret (fst sw).

End with_null_type.
End weak_intrusive_ptr.

(** ** namespace raw *)

(** The raw helpers instantiate the handle classes at the default null type. *)

Module raw_intrusive_ptr.

(** inline void incref(intrusive_ptr_target* self) *)
Definition incref (self : addr) : M unit :=
  if negb (self =? nullptr)%N then
    atomic_refcount_increment self ;; ret tt
  else ret tt.

(** inline void decref(intrusive_ptr_target* self): the temporary made by
    [reclaim] dies at the end of the statement. *)
Definition decref (self : addr) : M unit :=
  tmp <- intrusive_ptr.reclaim self ;;
  intrusive_ptr.destructor tmp ;;
  ret tt.

(** template <typename T> inline T* make_weak(T* self); on return the two
    locals are destroyed, [wptr] first. *)
Definition make_weak (self : addr) : M addr :=
  ptr <- intrusive_ptr.reclaim self ;;
  wptr <- weak_intrusive_ptr.from_strong ptr ;;
  ptr' <- intrusive_ptr.release ptr ;;
  res <- weak_intrusive_ptr.release wptr ;;
  weak_intrusive_ptr.destructor (snd res) ;;
  intrusive_ptr.destructor (snd ptr') ;;
  ret (fst res).

(** inline size_t use_count(intrusive_ptr_target* self) *)
Definition use_count (self : addr) : M Z :=
  ptr <- intrusive_ptr.reclaim self ;;
  r <- intrusive_ptr.use_count ptr ;;
  ptr' <- intrusive_ptr.release ptr ;;
  intrusive_ptr.destructor (snd ptr') ;;
  ret r.

End raw_intrusive_ptr.

Module raw_weak_intrusive_ptr.

(** inline void incref(weak_intrusive_ptr_target* self) *)
Definition incref (self : addr) : M unit :=
  atomic_weakcount_increment self ;; ret tt.

(** inline void decref(weak_intrusive_ptr_target* self) *)
Definition decref (self : addr) : M unit :=
  tmp <- weak_intrusive_ptr.reclaim self ;;
  weak_intrusive_ptr.destructor tmp ;;
  ret tt.

(** template <typename T> inline T* lock(T* self) *)
Definition lock (fuel : nat) (spurious : list bool) (self : addr) : M (option addr) :=
  wptr <- weak_intrusive_ptr.reclaim self ;;
  optr <- weak_intrusive_ptr.lock fuel spurious wptr ;;
  match optr with
  | None => ret None
  | Some ptr =>
      wptr' <- weak_intrusive_ptr.release wptr ;;
      res <- intrusive_ptr.release ptr ;;
      intrusive_ptr.destructor (snd res) ;;
      weak_intrusive_ptr.destructor (snd wptr') ;;
      ret (Some (fst res))
  end.

(** inline size_t use_count(weak_intrusive_ptr_target* self): the strong
    count seen through a weak pointer. *)
Definition use_count (self : addr) : M Z :=
  wptr <- weak_intrusive_ptr.reclaim self ;;
  r <- weak_intrusive_ptr.use_count wptr ;;
  wptr' <- weak_intrusive_ptr.release wptr ;;
  weak_intrusive_ptr.destructor (snd wptr') ;;
  ret r.

End raw_weak_intrusive_ptr.

(** ** Sequences of drops *)

(** [k] weak handles to the same target going out of scope one after the
    other. *)
Fixpoint drop_weak_handles `{NullType.t} (k : nat) (p : addr) : M unit :=
  match k with
  | O => ret tt
  | S k' => weak_intrusive_ptr.destructor (weak_intrusive_ptr.mk p) ;; drop_weak_handles k' p
  end.

(** ** Auxiliary definitions for the statements *)

(** The state in which target [p] holds the counters [t]. *)
Definition with_target (s : state) (p : addr) (t : intrusive_ptr_target) : state :=
  {| heap := <[p := t]> (heap s); trace := trace s |}.

(** The state a strong drop leaves behind. *)
Definition after_strong_reset (s : state) (p : addr) (t : intrusive_ptr_target) : state :=
  if refcount_ t =? 1 then
    if weakcount_ t =? 1 then
      {| heap := delete p (heap s); trace := trace s ++ [ReleaseResources p; Delete p] |}
    else
      {| heap := <[p := Target 0 (size_t (weakcount_ t - 1))]> (heap s);
         trace := trace s ++ [ReleaseResources p] |}
  else with_target s p (Target (size_t (refcount_ t - 1)) (weakcount_ t)).

(** The assertion of weak reclaim, as a function of the two counters. *)
Definition weak_unit_plausible (t : intrusive_ptr_target) : bool :=
  (weakcount_ t >? 1) || ((refcount_ t =? 0) && (weakcount_ t >? 0)).

(** [release()] followed by [reclaim] of the returned address: the address,
    the handle left behind and the handle obtained. *)
Definition strong_round_trip `{NullType.t} (h : intrusive_ptr.t)
    : M (addr * intrusive_ptr.t * intrusive_ptr.t) :=
  r <- intrusive_ptr.release h ;;
  h' <- intrusive_ptr.reclaim (fst r) ;;
  ret (fst r, snd r, h').

Definition weak_round_trip `{NullType.t} (h : weak_intrusive_ptr.t)
    : M (addr * weak_intrusive_ptr.t * weak_intrusive_ptr.t) :=
  r <- weak_intrusive_ptr.release h ;;
  h' <- weak_intrusive_ptr.reclaim (fst r) ;;
  ret (fst r, snd r, h').

(** A weak handle whose unit is accounted for in the counters of its target,
    in the sense of the comment in [weak_intrusive_ptr::reclaim]: weak count
    above 1 while strong owners exist, above 0 once they are gone. *)
Definition holds_weak_unit `{NullType.t} (h : weak_intrusive_ptr.t) (s : state) : Prop :=
  weak_intrusive_ptr.target_ h = NullType.singleton \/
  exists t, heap s !! weak_intrusive_ptr.target_ h = Some t /\
            (weakcount_ t > 1 \/ (refcount_ t = 0 /\ weakcount_ t > 0)).

(** The message of the assertion in [make]. *)
Definition make_failure : string :=
  "intrusive_ptr: Newly-created target had non-zero refcounts. Does its constructor do something strange like incref or create an intrusive_ptr from `this`?".

(** The default constructor body, and one that registers itself. *)
Definition plain_ctor (p : addr) : M unit := ret tt.
Definition self_registering_ctor (p : addr) : M unit := raw_intrusive_ptr.incref p.

(** One target at address 1 with the given counters, nothing logged. *)
Definition one_target (r w : Z) : state :=
  {| heap := {[ 1%N := Target r w ]}; trace := [] |}.

(** No target allocated, nothing logged. *)
Definition empty_state : state := {| heap := ∅; trace := [] |}.

(** The pair (strong count, weak count) read through a strong handle. *)
Definition counts `{NullType.t} (h : intrusive_ptr.t) : M (Z * Z) :=
  r <- intrusive_ptr.use_count h ;;
  w <- intrusive_ptr.weak_use_count h ;;
  ret (r, w).

(** The walk-through of a target's life: [make], copy, drop the copy, drop
    the original; the result lists the counts after each of the first three
    steps. *)
Definition scenario_strong_only : M (list (Z * Z)) :=
  h <- intrusive_ptr.make plain_ctor ;;
  c1 <- counts h ;;
  h2 <- intrusive_ptr.copy h ;;
  c2 <- counts h ;;
  intrusive_ptr.destructor h2 ;;
  c3 <- counts h ;;
  intrusive_ptr.destructor h ;;
  ret [c1; c2; c3].

(** The same with a weak observer that outlives the strong handle: the counts
    with the observer, the counts seen through it after the strong drop, the
    result of [lock()] then, and the events up to that point. *)
Definition scenario_with_weak
    : M ((Z * Z) * (Z * Z) * option intrusive_ptr.t * list event) :=
  h <- intrusive_ptr.make plain_ctor ;;
  w <- weak_intrusive_ptr.from_strong h ;;
  c1 <- counts h ;;
  intrusive_ptr.destructor h ;;
  r <- weak_intrusive_ptr.use_count w ;;
  n <- weak_intrusive_ptr.weak_use_count w ;;
  l <- weak_intrusive_ptr.lock 1 [] w ;;
  seen <- (fun s => Returned (trace s) s) ;;
  weak_intrusive_ptr.destructor w ;;
  ret (c1, (r, n), l, seen).

(** ** More of the surrounding code *)

(** [k] strong handles to the same target going out of scope one after the
    other, and [k] copies made of one handle (the copies stay alive). *)
Fixpoint drop_strong_handles `{NullType.t} (k : nat) (p : addr) : M unit :=
  match k with
  | O => ret tt
  | S k' => intrusive_ptr.destructor (intrusive_ptr.mk p) ;; drop_strong_handles k' p
  end.

Fixpoint copy_handle_times `{NullType.t} (k : nat) (h : intrusive_ptr.t) : M unit :=
  match k with
  | O => ret tt
  | S k' => intrusive_ptr.copy h ;; copy_handle_times k' h
  end.

(** The bookkeeping rule stated in the comment of [reset_]: as long as the
    strong count is positive the weak count is at least 1. *)
Definition counters_ok (t : intrusive_ptr_target) : Prop :=
  target_in_range t /\ (0 < refcount_ t -> 1 <= weakcount_ t).

Definition heap_ok (s : state) : Prop :=
  map_Forall (fun _ t => counters_ok t) (heap s).

(** enum class MemoryFormat : int8_t, by its underlying value. *)
Module MemoryFormat.
Definition Preserve : Z := 0.
Definition ChannelsLast : Z := 1.
Definition Contiguous : Z := 2.

Definition get_contiguous_memory_format : Z := Contiguous.
Definition get_preserve_memory_format : Z := Preserve.
Definition get_channelslast_memory_format : Z := ChannelsLast.

(** std::ostream& operator<<(std::ostream& stream, MemoryFormat memory_format);
    the stream is the text written so far.  After the assertion of the
    default case the function has no return statement. *)
Definition print (stream : string) (memory_format : Z) : M string :=
  if memory_format =? Preserve then ret (stream +:+ "Preserve")
  else if memory_format =? Contiguous then ret (stream +:+ "Contiguous")
  else if memory_format =? ChannelsLast then ret (stream +:+ "ChannelsLast")
  else
    CORETEN_ENFORCE "operator<<" false "false" ["Unknown memory format"] ;;
    (fun _ => Undefined).
End MemoryFormat.

(** enum class Device : int8_t, by its underlying value. *)
Module Device.
Definition CPU : Z := 0.
Definition CUDA : Z := 1.

Definition get_cpu_device : Z := CPU.
Definition get_cuda_device : Z := CUDA.

(** std::ostream& operator<<(std::ostream& stream, Device device_format) *)
Definition print (stream : string) (device_format : Z) : M string :=
  if device_format =? CPU then ret (stream +:+ "Device: CPU")
  else if device_format =? CUDA then ret (stream +:+ "Device: CUDA")
  else
    CORETEN_ENFORCE "operator<<" false "false" ["Unknown Device format"] ;;
    (fun _ => Undefined).
End Device.

(** Two targets, at addresses 1 and 2. *)
Definition two_targets (r1 w1 r2 w2 : Z) : state :=
  {| heap := <[2%N := Target r2 w2]> {[ 1%N := Target r1 w1 ]}; trace := [] |}.

(** A null policy whose sentinel is address 7. *)
Definition seven_null_type : NullType.t := {| NullType.singleton := 7%N |}.

(** ** The failure as the sources document it *)

(** The body of [coretenCheckFail] is not among the sources, but the sources
    say what it does.  The comment of [CORETEN_ENFORCE] (Macros.h, lines
    128-133): on failure the macro raises an exception, it does not quit the
    process.  The sibling macros are introduced as "Like CORETEN_ENFORCE, but
    raises IndexErrors instead of Errors" and expand to the [throw] of
    CORETEN_THROW_ERROR.  [Error] derives from [std::exception].  The functions
    that contain a check ([retain_], the copy constructors, [make], weak
    [reclaim], [unsafe_reclaim_from_nonowning]) are the ones not declared
    [noexcept], and the destructor of the target disables -Wterminate to be
    "allowed to use assertions (i.e. throw exceptions) in a destructor".

    Read this way, an outcome [Aborted func msg s] is a [coreten::Error] with
    message [msg], thrown inside [func] when the state was [s], and the rules
    of C++ for an exception in flight apply to the code around the call.  The
    definitions below are those rules and the two functions of the core that
    hold a local handle while a check can fail. *)



(** [intrusive_ptr::make] after the construction of its local [result]. *)
Definition make_rest `{NullType.t} (result : intrusive_ptr.t) : M intrusive_ptr.t :=
  ok <- (r <- load_refcount (intrusive_ptr.target_ result) ;;
         if r =? 0 then w <- load_weakcount (intrusive_ptr.target_ result) ;; ret (w =? 0)
         else ret false) ;;
  CORETEN_ENFORCE "make" ok
    "result.target_->refcount_ == 0 && result.target_->weakcount_ == 0"
    ["intrusive_ptr: Newly-created target had non-zero refcounts. Does its constructor do something strange like incref or create ";
     "an intrusive_ptr from `this`?"] ;;
  store_refcount (intrusive_ptr.target_ result) 1 ;;
  store_weakcount (intrusive_ptr.target_ result) 1 ;;
  ret result.


(** [raw::intrusive_ptr::make_weak] after the construction of its local
    [ptr]. *)
Definition make_weak_rest (ptr : intrusive_ptr.t) : M addr :=
  wptr <- weak_intrusive_ptr.from_strong ptr ;;
  ptr' <- intrusive_ptr.release ptr ;;
  res <- weak_intrusive_ptr.release wptr ;;
  weak_intrusive_ptr.destructor (snd res) ;;
  intrusive_ptr.destructor (snd ptr') ;;
  ret (fst res).


(** * Properties *)

(** ** Arithmetic of [size_t] *)

Lemma two_pow_size_bits : 2 ^ SIZE_BITS = 18446744073709551616.
Proof. reflexivity. Qed.

Lemma size_t_id z : in_size_t z -> size_t z = z.
Proof.
  unfold in_size_t, SIZE_MAX, size_t. rewrite two_pow_size_bits.
  intros Hz. apply Z.mod_small. lia.
Qed.

Lemma size_t_succ z : in_size_t z -> z < SIZE_MAX -> size_t (z + 1) = z + 1.
Proof.
  unfold in_size_t, SIZE_MAX, size_t. rewrite two_pow_size_bits.
  intros Hz Hlt. apply Z.mod_small. lia.
Qed.

Lemma size_t_succ_max : size_t (SIZE_MAX + 1) = 0.
Proof. reflexivity. Qed.

Lemma size_t_pred z : in_size_t z -> 0 < z -> size_t (z - 1) = z - 1.
Proof.
  unfold in_size_t, SIZE_MAX, size_t. rewrite two_pow_size_bits.
  intros Hz Hlt. apply Z.mod_small. lia.
Qed.

Lemma size_t_pred_zero : size_t (0 - 1) = SIZE_MAX.
Proof. reflexivity. Qed.

Lemma size_t_range z : in_size_t (size_t z).
Proof.
  unfold in_size_t, SIZE_MAX, size_t. rewrite two_pow_size_bits.
  pose proof (Z.mod_pos_bound z 18446744073709551616 ltac:(lia)). lia.
Qed.

(** The incremented value is 1 exactly when the old value was 0. *)
Lemma size_t_succ_is_one z : in_size_t z -> (size_t (z + 1) =? 1) = (z =? 0).
Proof.
  intros Hz. destruct (Z.eq_dec z SIZE_MAX) as [->|Hne].
  - reflexivity.
  - rewrite size_t_succ by (unfold in_size_t in *; lia).
    destruct (Z.eqb_spec z 0), (Z.eqb_spec (z + 1) 1); lia.
Qed.

(** The decremented value is 0 exactly when the old value was 1. *)
Lemma size_t_pred_is_zero z : in_size_t z -> (size_t (z - 1) =? 0) = (z =? 1).
Proof.
  intros Hz. destruct (Z.eq_dec z 0) as [->|Hne].
  - reflexivity.
  - rewrite size_t_pred by (unfold in_size_t in *; lia).
    destruct (Z.eqb_spec z 1), (Z.eqb_spec (z - 1) 0); lia.
Qed.

(** ** The monad *)

Lemma bind_returned {A B} (m : M A) (k : A -> M B) s a s' :
  m s = Returned a s' -> bind m k s = k a s'.
Proof. unfold bind. intros ->. reflexivity. Qed.

Lemma bind_aborted {A B} (m : M A) (k : A -> M B) s f msg s' :
  m s = Aborted f msg s' -> bind m k s = Aborted f msg s'.
Proof. unfold bind. intros ->. reflexivity. Qed.

Lemma bind_undefined {A B} (m : M A) (k : A -> M B) s :
  m s = Undefined -> bind m k s = Undefined.
Proof. unfold bind. intros ->. reflexivity. Qed.

Lemma bind_assoc {A B C} (m : M A) (k : A -> M B) (k' : B -> M C) s :
  bind (bind m k) k' s = bind m (fun a => bind (k a) k') s.
Proof. unfold bind. destruct (m s); reflexivity. Qed.

Lemma bind_ret {A B} (a : A) (k : A -> M B) s : bind (ret a) k s = k a s.
Proof. reflexivity. Qed.

(** ** Equations of the counter operations *)

Section counter_equations.
Variables (p : addr) (s : state) (t : intrusive_ptr_target).
Hypothesis Hp : heap s !! p = Some t.

Lemma deref_eq : deref p s = Returned t s.
Proof. unfold deref. rewrite Hp. reflexivity. Qed.

Lemma load_refcount_eq : load_refcount p s = Returned (refcount_ t) s.
Proof. unfold load_refcount. rewrite (bind_returned _ _ _ _ _ deref_eq). reflexivity. Qed.

Lemma load_weakcount_eq : load_weakcount p s = Returned (weakcount_ t) s.
Proof. unfold load_weakcount. rewrite (bind_returned _ _ _ _ _ deref_eq). reflexivity. Qed.

Lemma store_refcount_eq v :
  store_refcount p v s = Returned tt (with_target s p (Target v (weakcount_ t))).
Proof. unfold store_refcount. rewrite (bind_returned _ _ _ _ _ deref_eq). reflexivity. Qed.

Lemma store_weakcount_eq v :
  store_weakcount p v s = Returned tt (with_target s p (Target (refcount_ t) v)).
Proof. unfold store_weakcount. rewrite (bind_returned _ _ _ _ _ deref_eq). reflexivity. Qed.

Lemma atomic_refcount_increment_eq :
  atomic_refcount_increment p s =
  Returned (size_t (refcount_ t + 1))
           (with_target s p (Target (size_t (refcount_ t + 1)) (weakcount_ t))).
Proof.
  unfold atomic_refcount_increment.
  rewrite (bind_returned _ _ _ _ _ load_refcount_eq).
  rewrite (bind_returned _ _ _ _ _ (store_refcount_eq _)). reflexivity.
Qed.

Lemma atomic_weakcount_increment_eq :
  atomic_weakcount_increment p s =
  Returned (size_t (weakcount_ t + 1))
           (with_target s p (Target (refcount_ t) (size_t (weakcount_ t + 1)))).
Proof.
  unfold atomic_weakcount_increment.
  rewrite (bind_returned _ _ _ _ _ load_weakcount_eq).
  rewrite (bind_returned _ _ _ _ _ (store_weakcount_eq _)). reflexivity.
Qed.

Lemma atomic_refcount_decrement_eq :
  atomic_refcount_decrement p s =
  Returned (size_t (refcount_ t - 1))
           (with_target s p (Target (size_t (refcount_ t - 1)) (weakcount_ t))).
Proof.
  unfold atomic_refcount_decrement.
  rewrite (bind_returned _ _ _ _ _ load_refcount_eq).
  rewrite (bind_returned _ _ _ _ _ (store_refcount_eq _)). reflexivity.
Qed.

Lemma atomic_weakcount_decrement_eq :
  atomic_weakcount_decrement p s =
  Returned (size_t (weakcount_ t - 1))
           (with_target s p (Target (refcount_ t) (size_t (weakcount_ t - 1)))).
Proof.
  unfold atomic_weakcount_decrement.
  rewrite (bind_returned _ _ _ _ _ load_weakcount_eq).
  rewrite (bind_returned _ _ _ _ _ (store_weakcount_eq _)). reflexivity.
Qed.

End counter_equations.

Lemma with_target_lookup s p t : heap (with_target s p t) !! p = Some t.
Proof. apply lookup_insert_eq. Qed.

Lemma with_target_lookup_ne s p q t : p <> q -> heap (with_target s p t) !! q = heap s !! q.
Proof. intros Hne. apply lookup_insert_ne. exact Hne. Qed.

Lemma with_target_twice s p t t' :
  with_target (with_target s p t) p t' = with_target s p t'.
Proof. unfold with_target. simpl. rewrite insert_insert_eq. reflexivity. Qed.

Lemma with_target_same s p t : heap s !! p = Some t -> with_target s p t = s.
Proof.
  intros Hp. destruct s as [h tr]. unfold with_target. simpl in *.
  rewrite insert_id by exact Hp. reflexivity.
Qed.

Lemma with_target_trace s p t : trace (with_target s p t) = trace s.
Proof. reflexivity. Qed.


(** ** Symbolic execution *)

Create HintDb exec discriminated.
#[local] Hint Resolve deref_eq load_refcount_eq load_weakcount_eq store_refcount_eq
  store_weakcount_eq atomic_refcount_increment_eq atomic_weakcount_increment_eq
  atomic_refcount_decrement_eq atomic_weakcount_decrement_eq
  with_target_lookup : exec.

(** One step: reassociate, or run the operation at the head of the program. *)
Ltac run1 :=
  lazymatch goal with
  | |- context [bind (bind _ _) _ _] => rewrite bind_assoc
  | |- context [bind (ret _) _ _] => rewrite bind_ret
  | |- context [bind (CORETEN_ENFORCE _ true _ _) _ _] =>
      unfold CORETEN_ENFORCE at 1; cbn [negb]; rewrite bind_ret
  | |- context [bind ?m _ ?s] =>
      erewrite (bind_returned m) by (eauto with exec)
  end; cbv beta.

Ltac run := repeat run1.
Lemma delete_eq p s t :
  heap s !! p = Some t -> refcount_ t = 0 -> weakcount_ t = 0 \/ weakcount_ t = 1 ->
  delete_ p s = Returned tt {| heap := delete p (heap s); trace := trace s ++ [Delete p] |}.
Proof.
  intros Hp Hr Hw. unfold delete_, destroy_target.
  run. rewrite Hr. cbn [Z.eqb]. run.
  assert ((weakcount_ t =? 0) || (weakcount_ t =? 1) = true) as ->.
  { destruct Hw as [-> | ->]; reflexivity. }
  run. reflexivity.
Qed.

Lemma delete_still_owned p s t :
  heap s !! p = Some t -> refcount_ t <> 0 ->
  delete_ p s =
  Aborted "~intrusive_ptr_target"
    "Attempted to declass an intrusive_ptr_target that still has an intrusive_ptr to it" s.
Proof.
  intros Hp Hr. unfold delete_, destroy_target.
  run. apply Z.eqb_neq in Hr. rewrite Hr. reflexivity.
Qed.

Section strong_equations.
Context `{NT : NullType.t}.

Lemma is_null_false p : p <> NullType.singleton -> intrusive_ptr.is_null p = false.
Proof. intros Hne. unfold intrusive_ptr.is_null. apply N.eqb_neq. exact Hne. Qed.

Lemma is_null_true : intrusive_ptr.is_null NullType.singleton = true.
Proof. unfold intrusive_ptr.is_null. apply N.eqb_refl. Qed.

(** retain_ on a live address: the counter is raised first, the assertion
    is evaluated on the new value. *)
Lemma retain_eq p s t :
  p <> NullType.singleton -> heap s !! p = Some t -> in_size_t (refcount_ t) ->
  let s' := with_target s p (Target (size_t (refcount_ t + 1)) (weakcount_ t)) in
  intrusive_ptr.retain_ (intrusive_ptr.mk p) s =
  if refcount_ t =? 0
  then Aborted "retain_" "intrusive_ptr: Cannot increase refcount after it reached zero." s'
  else Returned tt s'.
Proof.
  intros Hne Hp Hr s'. unfold intrusive_ptr.retain_. cbn [intrusive_ptr.target_].
  rewrite (is_null_false _ Hne). cbn [negb].
  unfold bind. rewrite (atomic_refcount_increment_eq _ _ _ Hp).
  rewrite (size_t_succ_is_one _ Hr).
  destruct (refcount_ t =? 0); reflexivity.
Qed.

Lemma retain_null s : intrusive_ptr.retain_ (intrusive_ptr.mk NullType.singleton) s = Returned tt s.
Proof.
  unfold intrusive_ptr.retain_. cbn [intrusive_ptr.target_]. rewrite is_null_true. reflexivity.
Qed.
End strong_equations.

Section reset_equations.
Context `{NT : NullType.t}.

Lemma weak_is_null_false p :
  p <> NullType.singleton -> weak_intrusive_ptr.is_null p = false.
Proof. intros Hne. unfold weak_intrusive_ptr.is_null. apply N.eqb_neq. exact Hne. Qed.

Lemma weak_is_null_true : weak_intrusive_ptr.is_null NullType.singleton = true.
Proof. unfold weak_intrusive_ptr.is_null. apply N.eqb_refl. Qed.

Lemma strong_reset_eq p s t :
  p <> NullType.singleton -> heap s !! p = Some t -> target_in_range t ->
  intrusive_ptr.reset_ (intrusive_ptr.mk p) s =
  Returned (intrusive_ptr.mk NullType.singleton) (after_strong_reset s p t).
Proof.
  intros Hne Hp [Hr Hw]. unfold intrusive_ptr.reset_, after_strong_reset.
  cbn [intrusive_ptr.target_]. rewrite (is_null_false _ Hne). cbn [negb].
  run. rewrite (size_t_pred_is_zero _ Hr).
  destruct (Z.eqb_spec (refcount_ t) 1) as [Hr1 | Hr1].
  - unfold release_resources, emit. run. cbn [weakcount_ refcount_].
    rewrite Hr1. change (size_t (1 - 1)) with 0.
    destruct (Z.eqb_spec (weakcount_ t) 1) as [Hw1 | Hw1].
    + erewrite (bind_returned (delete_ p)); [reflexivity|].
      erewrite delete_eq; [| apply with_target_lookup | reflexivity | right; exact Hw1].
      cbn [heap trace with_target]. rewrite delete_insert_eq, <- app_assoc. reflexivity.
    + run. cbn [weakcount_ refcount_].
      rewrite (size_t_pred_is_zero _ Hw).
      destruct (Z.eqb_spec (weakcount_ t) 1) as [Hw1' | _]; [contradiction|].
      run. unfold ret, with_target. cbn [heap trace].
      rewrite insert_insert_eq. reflexivity.
  - run. reflexivity.
Qed.

(** The outcome of a weak drop. *)
Lemma weak_reset_eq p s t :
  p <> NullType.singleton -> heap s !! p = Some t -> target_in_range t ->
  weak_intrusive_ptr.reset_ (weak_intrusive_ptr.mk p) s =
  if weakcount_ t =? 1 then
    if refcount_ t =? 0 then
      Returned (weak_intrusive_ptr.mk NullType.singleton)
        {| heap := delete p (heap s); trace := trace s ++ [Delete p] |}
    else
      Aborted "~intrusive_ptr_target"
        "Attempted to declass an intrusive_ptr_target that still has an intrusive_ptr to it"
        (with_target s p (Target (refcount_ t) 0))
  else
    Returned (weak_intrusive_ptr.mk NullType.singleton)
      (with_target s p (Target (refcount_ t) (size_t (weakcount_ t - 1)))).
Proof.
  intros Hne Hp [Hr Hw]. unfold weak_intrusive_ptr.reset_.
  cbn [weak_intrusive_ptr.target_]. rewrite (weak_is_null_false _ Hne). cbn [negb].
  run. rewrite (size_t_pred_is_zero _ Hw).
  destruct (Z.eqb_spec (weakcount_ t) 1) as [Hw1 | Hw1].
  - rewrite Hw1. change (size_t (1 - 1)) with 0.
    destruct (Z.eqb_spec (refcount_ t) 0) as [Hr0 | Hr0].
    + erewrite (bind_returned (delete_ p)); [reflexivity|].
      erewrite delete_eq; [| apply with_target_lookup | exact Hr0 | left; reflexivity].
      cbn [heap trace with_target]. rewrite delete_insert_eq. reflexivity.
    + erewrite (bind_aborted (delete_ p)); [reflexivity|].
      erewrite delete_still_owned; [reflexivity | apply with_target_lookup | exact Hr0].
  - run. reflexivity.
Qed.

Lemma strong_reset_null s :
  intrusive_ptr.reset_ (intrusive_ptr.mk NullType.singleton) s =
  Returned (intrusive_ptr.mk NullType.singleton) s.
Proof.
  unfold intrusive_ptr.reset_. cbn [intrusive_ptr.target_]. rewrite is_null_true.
  reflexivity.
Qed.

Lemma weak_reset_null s :
  weak_intrusive_ptr.reset_ (weak_intrusive_ptr.mk NullType.singleton) s =
  Returned (weak_intrusive_ptr.mk NullType.singleton) s.
Proof.
  unfold weak_intrusive_ptr.reset_. cbn [weak_intrusive_ptr.target_].
  rewrite weak_is_null_true. reflexivity.
Qed.

(** weak retain_ on a live address. *)
Lemma weak_retain_eq p s t :
  p <> NullType.singleton -> heap s !! p = Some t -> in_size_t (weakcount_ t) ->
  let s' := with_target s p (Target (refcount_ t) (size_t (weakcount_ t + 1))) in
  weak_intrusive_ptr.retain_ (weak_intrusive_ptr.mk p) s =
  if weakcount_ t =? 0
  then Aborted "retain_" "weak_intrusive_ptr: Cannot increase weakcount after it reached zero." s'
  else Returned tt s'.
Proof.
  intros Hne Hp Hw s'. unfold weak_intrusive_ptr.retain_. cbn [weak_intrusive_ptr.target_].
  rewrite (weak_is_null_false _ Hne). cbn [negb].
  unfold bind. rewrite (atomic_weakcount_increment_eq _ _ _ Hp).
  rewrite (size_t_succ_is_one _ Hw).
  destruct (weakcount_ t =? 0); reflexivity.
Qed.

Lemma weak_retain_null s :
  weak_intrusive_ptr.retain_ (weak_intrusive_ptr.mk NullType.singleton) s = Returned tt s.
Proof.
  unfold weak_intrusive_ptr.retain_. cbn [weak_intrusive_ptr.target_].
  rewrite weak_is_null_true. reflexivity.
Qed.
End reset_equations.

Section more_equations.
Context `{NT : NullType.t}.

Lemma strong_copy_eq p s t :
  p <> NullType.singleton -> heap s !! p = Some t -> in_size_t (refcount_ t) ->
  let s' := with_target s p (Target (size_t (refcount_ t + 1)) (weakcount_ t)) in
  intrusive_ptr.copy (intrusive_ptr.mk p) s =
  if refcount_ t =? 0
  then Aborted "retain_" "intrusive_ptr: Cannot increase refcount after it reached zero." s'
  else Returned (intrusive_ptr.mk p) s'.
Proof.
  intros Hne Hp Hr s'. unfold intrusive_ptr.copy. cbn [intrusive_ptr.target_].
  unfold bind. rewrite (retain_eq _ _ _ Hne Hp Hr). fold s'.
  destruct (refcount_ t =? 0); reflexivity.
Qed.

Lemma weak_copy_eq p s t :
  p <> NullType.singleton -> heap s !! p = Some t -> in_size_t (weakcount_ t) ->
  let s' := with_target s p (Target (refcount_ t) (size_t (weakcount_ t + 1))) in
  weak_intrusive_ptr.copy (weak_intrusive_ptr.mk p) s =
  if weakcount_ t =? 0
  then Aborted "retain_" "weak_intrusive_ptr: Cannot increase weakcount after it reached zero." s'
  else Returned (weak_intrusive_ptr.mk p) s'.
Proof.
  intros Hne Hp Hw s'. unfold weak_intrusive_ptr.copy. cbn [weak_intrusive_ptr.target_].
  unfold bind. rewrite (weak_retain_eq _ _ _ Hne Hp Hw). fold s'.
  destruct (weakcount_ t =? 0); reflexivity.
Qed.

Lemma weak_from_strong_eq p s t :
  p <> NullType.singleton -> heap s !! p = Some t -> in_size_t (weakcount_ t) ->
  let s' := with_target s p (Target (refcount_ t) (size_t (weakcount_ t + 1))) in
  weak_intrusive_ptr.from_strong (intrusive_ptr.mk p) s =
  if weakcount_ t =? 0
  then Aborted "retain_" "weak_intrusive_ptr: Cannot increase weakcount after it reached zero." s'
  else Returned (weak_intrusive_ptr.mk p) s'.
Proof.
  intros Hne Hp Hw s'. unfold weak_intrusive_ptr.from_strong, weak_intrusive_ptr.from_raw.
  cbn [intrusive_ptr.get intrusive_ptr.target_].
  unfold bind. rewrite (weak_retain_eq _ _ _ Hne Hp Hw). fold s'.
  destruct (weakcount_ t =? 0); reflexivity.
Qed.

Lemma weak_reclaim_eq p s t :
  p <> NullType.singleton -> heap s !! p = Some t ->
  weak_intrusive_ptr.reclaim p s =
  if weak_unit_plausible t then Returned (weak_intrusive_ptr.mk p) s
  else Aborted "reclaim"
         "weak_intrusive_ptr: Can only weak_intrusive_ptr::reclaim() owning pointers that were created using weak_intrusive_ptr::release()."
         s.
Proof.
  intros Hne Hp. unfold weak_intrusive_ptr.reclaim, weak_unit_plausible.
  rewrite (weak_is_null_false _ Hne). run.
  destruct (weakcount_ t >? 1) eqn:Hw1; cbn [orb].
  - run. reflexivity.
  - run. destruct (refcount_ t =? 0) eqn:Hr0; cbn [andb].
    + run. destruct (weakcount_ t >? 0); reflexivity.
    + run. reflexivity.
Qed.

Lemma weak_reclaim_null s :
  weak_intrusive_ptr.reclaim NullType.singleton s =
  Returned (weak_intrusive_ptr.mk NullType.singleton) s.
Proof.
  unfold weak_intrusive_ptr.reclaim. rewrite weak_is_null_true. reflexivity.
Qed.

Lemma weak_unit_plausible_spec t :
  weak_unit_plausible t = true <->
  weakcount_ t > 1 \/ (refcount_ t = 0 /\ weakcount_ t > 0).
Proof.
  unfold weak_unit_plausible.
  destruct (Z.gtb_spec (weakcount_ t) 1), (Z.eqb_spec (refcount_ t) 0),
    (Z.gtb_spec (weakcount_ t) 0); cbn; split; intros; try discriminate; try lia; auto.
Qed.
End more_equations.

Ltac in_range := unfold target_in_range, in_size_t; cbn; repeat split; discriminate.

(** ** The life of a target, run *)

Example scenario_strong_only_runs :
  scenario_strong_only empty_state =
  Returned [(1, 1); (2, 1); (1, 1)]
    {| heap := ∅; trace := [ReleaseResources 1%N; Delete 1%N] |}.
Proof. vm_compute. reflexivity. Qed.

Example scenario_with_weak_runs :
  scenario_with_weak empty_state =
  Returned ((1, 2), (0, 1), Some (intrusive_ptr.mk nullptr), [ReleaseResources 1%N])
    {| heap := ∅; trace := [ReleaseResources 1%N; Delete 1%N] |}.
Proof. vm_compute. reflexivity. Qed.

(** [raw::intrusive_ptr::decref] is one strong drop. *)
Lemma raw_decref_eq p s t :
  p <> nullptr -> heap s !! p = Some t -> target_in_range t ->
  raw_intrusive_ptr.decref p s = Returned tt (after_strong_reset s p t).
Proof.
  intros Hne Hp Hrange.
  assert (Hne' : p <> @NullType.singleton intrusive_target_default_null_type) by exact Hne.
  unfold raw_intrusive_ptr.decref, intrusive_ptr.reclaim,
    intrusive_ptr.from_raw_dont_increase, intrusive_ptr.destructor.
  rewrite bind_ret.
  rewrite (bind_returned _ _ _ _ _
             (@strong_reset_eq intrusive_target_default_null_type p s t Hne' Hp Hrange)).
  reflexivity.
Qed.

(** ** Copying a strong handle *)

(** C4: copying a strong handle to a non-sentinel target raises the strong
    count by one (in [size_t] arithmetic, which is the integer successor below
    [SIZE_MAX]) and touches nothing else; the copy stops the program exactly
    when that increment is the transition from 0 to 1, the raised counter
    being already stored; copying a sentinel handle changes nothing and
    returns. *)
Theorem strong_copy_retains `{NT : NullType.t} (rhs : intrusive_ptr.t) (s : state) :
  (intrusive_ptr.target_ rhs = NullType.singleton ->
   intrusive_ptr.copy rhs s = Returned (intrusive_ptr.mk NullType.singleton) s) /\
  (forall t,
     intrusive_ptr.target_ rhs <> NullType.singleton ->
     heap s !! intrusive_ptr.target_ rhs = Some t ->
     target_in_range t ->
     let s' := with_target s (intrusive_ptr.target_ rhs)
                 (Target (size_t (refcount_ t + 1)) (weakcount_ t)) in
     intrusive_ptr.copy rhs s =
       (if refcount_ t =? 0
        then Aborted "retain_"
               "intrusive_ptr: Cannot increase refcount after it reached zero." s'
        else Returned rhs s') /\
     (refcount_ t < SIZE_MAX -> size_t (refcount_ t + 1) = refcount_ t + 1) /\
     (forall q, q <> intrusive_ptr.target_ rhs -> heap s' !! q = heap s !! q) /\
     trace s' = trace s).
Proof.
  destruct rhs as [p]. cbn [intrusive_ptr.target_]. split.
  - intros ->. unfold intrusive_ptr.copy. cbn [intrusive_ptr.target_].
    unfold bind. rewrite retain_null. reflexivity.
  - intros t Hne Hp [Hr Hw]. split; [|split; [|split]].
    + apply (strong_copy_eq _ _ _ Hne Hp Hr).
    + intros Hlt. apply size_t_succ; assumption.
    + intros q Hq. apply with_target_lookup_ne. congruence.
    + reflexivity.
Qed.

Lemma strong_copy_retains_witness :
  intrusive_ptr.copy (intrusive_ptr.mk 1%N) (one_target 2 1) =
    Returned (intrusive_ptr.mk 1%N) (with_target (one_target 2 1) 1%N (Target 3 1)) /\
  intrusive_ptr.copy (intrusive_ptr.mk 1%N) (one_target 0 1) =
    Aborted "retain_" "intrusive_ptr: Cannot increase refcount after it reached zero."
      (with_target (one_target 0 1) 1%N (Target 1 1)) /\
  intrusive_ptr.copy (intrusive_ptr.mk nullptr) (one_target 2 1) =
    Returned (intrusive_ptr.mk nullptr) (one_target 2 1).
Proof.
  split; [|split].
  - destruct (strong_copy_retains (intrusive_ptr.mk 1%N) (one_target 2 1)) as [_ H].
    destruct (H (Target 2 1)) as [H' _]; [discriminate | reflexivity | in_range |].
    exact H'.
  - destruct (strong_copy_retains (intrusive_ptr.mk 1%N) (one_target 0 1)) as [_ H].
    destruct (H (Target 0 1)) as [H' _]; [discriminate | reflexivity | in_range |].
    exact H'.
  - destruct (strong_copy_retains (intrusive_ptr.mk nullptr) (one_target 2 1)) as [H _].
    apply H. reflexivity.
Defined.

(** ** The raw helpers *)

(** C10: [raw::intrusive_ptr::incref] on the null pointer returns without
    reading or writing any target, in every state; on a non-null target it
    raises the strong count by one and returns, also when the count was 0,
    where the retain path of the handle class stops the program. *)
Theorem raw_incref_unguarded (s : state) :
  raw_intrusive_ptr.incref nullptr s = Returned tt s /\
  (forall p t,
     p <> nullptr -> heap s !! p = Some t -> target_in_range t ->
     let s' := with_target s p (Target (size_t (refcount_ t + 1)) (weakcount_ t)) in
     raw_intrusive_ptr.incref p s = Returned tt s' /\
     (refcount_ t < SIZE_MAX -> size_t (refcount_ t + 1) = refcount_ t + 1) /\
     (refcount_ t = 0 ->
      raw_intrusive_ptr.incref p s = Returned tt (with_target s p (Target 1 (weakcount_ t))) /\
      intrusive_ptr.retain_ (intrusive_ptr.mk p) s =
        Aborted "retain_" "intrusive_ptr: Cannot increase refcount after it reached zero."
          (with_target s p (Target 1 (weakcount_ t))))).
Proof.
  split; [reflexivity|].
  intros p t Hne Hp [Hr Hw] s'.
  assert (Hinc : raw_intrusive_ptr.incref p s = Returned tt s').
  { unfold raw_intrusive_ptr.incref.
    apply N.eqb_neq in Hne. rewrite Hne. cbn [negb]. run. reflexivity. }
  split; [exact Hinc|]. split.
  - intros Hlt. apply size_t_succ; assumption.
  - intros H0. subst s'. rewrite H0 in Hinc. split; [exact Hinc|].
    assert (Hne' : p <> NullType.singleton) by exact Hne.
    rewrite (retain_eq p s t Hne' Hp Hr), H0. reflexivity.
Qed.

Lemma raw_incref_unguarded_witness :
  raw_intrusive_ptr.incref 1%N (one_target 0 0) = Returned tt (with_target (one_target 0 0) 1%N (Target 1 0)) /\
  intrusive_ptr.retain_ (intrusive_ptr.mk 1%N) (one_target 0 0) =
    Aborted "retain_" "intrusive_ptr: Cannot increase refcount after it reached zero."
      (with_target (one_target 0 0) 1%N (Target 1 0)).
Proof.
  destruct (raw_incref_unguarded (one_target 0 0)) as [_ H].
  destruct (H 1%N (Target 0 0)) as (_ & _ & H'); [discriminate | reflexivity | in_range |].
  apply H'. reflexivity.
Defined.

(** C8: for a non-null address whose strong count is positive and whose weak
    count is at least 1, [raw::intrusive_ptr::make_weak] returns the same
    address, raises the weak count by one ([size_t] arithmetic; the integer
    successor below [SIZE_MAX]) and leaves the strong count, every other
    target and the event log as they were. *)
Theorem raw_make_weak_adds_weak_unit (p : addr) (s : state) (t : intrusive_ptr_target) :
  p <> nullptr -> heap s !! p = Some t -> target_in_range t ->
  0 < refcount_ t -> 1 <= weakcount_ t ->
  let s' := with_target s p (Target (refcount_ t) (size_t (weakcount_ t + 1))) in
  raw_intrusive_ptr.make_weak p s = Returned p s' /\
  (weakcount_ t < SIZE_MAX -> size_t (weakcount_ t + 1) = weakcount_ t + 1) /\
  (forall q, q <> p -> heap s' !! q = heap s !! q) /\
  trace s' = trace s.
Proof.
  intros Hne Hp [Hr Hw] Hpos Hw1 s'. split; [|split; [|split]].
  - assert (Hne' : p <> NullType.singleton) by exact Hne.
    unfold raw_intrusive_ptr.make_weak, intrusive_ptr.reclaim,
      intrusive_ptr.from_raw_dont_increase. run.
    erewrite bind_returned.
    2:{ rewrite (weak_from_strong_eq p s t Hne' Hp Hw).
        destruct (Z.eqb_spec (weakcount_ t) 0); [lia | reflexivity]. }
    unfold intrusive_ptr.release, weak_intrusive_ptr.release. run.
    reflexivity.
  - intros Hlt. apply size_t_succ; assumption.
  - intros q Hq. apply with_target_lookup_ne. congruence.
  - reflexivity.
Qed.

Lemma raw_make_weak_adds_weak_unit_witness :
  raw_intrusive_ptr.make_weak 1%N (one_target 1 1) =
  Returned 1%N (with_target (one_target 1 1) 1%N (Target 1 2)).
Proof.
  apply (raw_make_weak_adds_weak_unit 1%N (one_target 1 1) (Target 1 1)).
  - discriminate.
  - reflexivity.
  - in_range.
  - reflexivity.
  - discriminate.
Defined.

(** ** Crossing a boundary: release and reclaim *)

(** C5: [release()] then [reclaim] of the returned address gives back a handle
    with the same address in the same state (no counter moved, no event
    logged, so both counts read as before), and leaves the released handle at
    the sentinel; for strong handles always, for weak handles whenever the
    handle holds a weak unit of its target. *)
Theorem release_reclaim_round_trip `{NT : NullType.t} (s : state) :
  (forall h : intrusive_ptr.t,
     strong_round_trip h s =
       Returned (intrusive_ptr.target_ h, intrusive_ptr.mk NullType.singleton, h) s) /\
  (forall h : weak_intrusive_ptr.t,
     holds_weak_unit h s ->
     weak_round_trip h s =
       Returned (weak_intrusive_ptr.target_ h, weak_intrusive_ptr.mk NullType.singleton, h) s).
Proof.
  split.
  - intros [p]. reflexivity.
  - intros [p] Hunit. unfold holds_weak_unit in Hunit.
    unfold weak_round_trip, weak_intrusive_ptr.release.
    cbn [weak_intrusive_ptr.target_] in *. run. cbn [fst snd].
    destruct Hunit as [-> | (t & Hp & Hcount)].
    + erewrite bind_returned by apply weak_reclaim_null. reflexivity.
    + destruct (N.eq_dec p NullType.singleton) as [-> | Hne].
      * erewrite bind_returned by apply weak_reclaim_null. reflexivity.
      * erewrite bind_returned; [reflexivity|].
        rewrite (weak_reclaim_eq p s t Hne Hp).
        apply weak_unit_plausible_spec in Hcount. rewrite Hcount. reflexivity.
Qed.

Lemma release_reclaim_round_trip_witness :
  weak_round_trip (weak_intrusive_ptr.mk 1%N) (one_target 1 2) =
  Returned (1%N, weak_intrusive_ptr.mk nullptr, weak_intrusive_ptr.mk 1%N) (one_target 1 2).
Proof.
  destruct (release_reclaim_round_trip (one_target 1 2)) as [_ H].
  apply (H (weak_intrusive_ptr.mk 1%N)).
  right. exists (Target 1 2). split; [reflexivity|]. left. reflexivity.
Defined.

(** C6, as the code has it: [weak_intrusive_ptr::reclaim] stops the program
    exactly when the address is not the sentinel, its weak count is at most 1,
    and either its strong count is non-zero or its weak count is 0; for the
    sentinel, for a weak count above 1, and for strong count 0 with a positive
    weak count it returns a weak handle on the address in an unchanged
    state. *)
Theorem weak_reclaim_guard `{NT : NullType.t} (p : addr) (s : state) :
  (p = NullType.singleton ->
   weak_intrusive_ptr.reclaim p s = Returned (weak_intrusive_ptr.mk p) s) /\
  (forall t,
     p <> NullType.singleton -> heap s !! p = Some t -> target_in_range t ->
     let fails := weakcount_ t <= 1 /\ (refcount_ t <> 0 \/ weakcount_ t = 0) in
     (fails ->
      weak_intrusive_ptr.reclaim p s =
        Aborted "reclaim"
          "weak_intrusive_ptr: Can only weak_intrusive_ptr::reclaim() owning pointers that were created using weak_intrusive_ptr::release()."
          s) /\
     (~ fails -> weak_intrusive_ptr.reclaim p s = Returned (weak_intrusive_ptr.mk p) s) /\
     (~ fails <-> weakcount_ t > 1 \/ (refcount_ t = 0 /\ weakcount_ t > 0))).
Proof.
  split.
  - intros ->. apply weak_reclaim_null.
  - intros t Hne Hp [Hr Hw] fails. subst fails.
    rewrite (weak_reclaim_eq p s t Hne Hp).
    pose proof (weak_unit_plausible_spec t) as Hspec.
    unfold in_size_t in *.
    destruct (weak_unit_plausible t); split; [| split | | split].
    + intros [H1 H2]. destruct Hspec as [Hspec _]. specialize (Hspec eq_refl). lia.
    + reflexivity.
    + lia.
    + reflexivity.
    + intros Hnf. exfalso. apply Hnf.
      destruct Hspec as [_ Hspec].
      assert (~ (weakcount_ t > 1 \/ refcount_ t = 0 /\ weakcount_ t > 0)) as Hn
        by (intros H; specialize (Hspec H); discriminate).
      lia.
    + split; [| lia]. intros Hnf. destruct Hspec as [_ Hspec].
      assert (~ (weakcount_ t > 1 \/ refcount_ t = 0 /\ weakcount_ t > 0)) as Hn
        by (intros H; specialize (Hspec H); discriminate).
      lia.
Qed.

Lemma weak_reclaim_guard_witness :
  weak_intrusive_ptr.reclaim 1%N (one_target 1 1) =
    Aborted "reclaim"
      "weak_intrusive_ptr: Can only weak_intrusive_ptr::reclaim() owning pointers that were created using weak_intrusive_ptr::release()."
      (one_target 1 1) /\
  weak_intrusive_ptr.reclaim nullptr (one_target 1 1) =
    Returned (weak_intrusive_ptr.mk nullptr) (one_target 1 1).
Proof.
  split.
  - destruct (weak_reclaim_guard 1%N (one_target 1 1)) as [_ H].
    destruct (H (Target 1 1)) as [H' _]; [discriminate | reflexivity | in_range |].
    apply H'. cbn. lia.
  - apply (weak_reclaim_guard nullptr (one_target 1 1)). reflexivity.
Defined.

(** C6 as stated fails on a target that was never wrapped, whose counters are
    both 0: reclaim stops the program although the strong count is zero. *)
Lemma weak_reclaim_aborts_on_unmanaged_target :
  heap (one_target 0 0) !! 1%N = Some (Target 0 0) /\
  weak_intrusive_ptr.reclaim 1%N (one_target 0 0) =
    Aborted "reclaim"
      "weak_intrusive_ptr: Can only weak_intrusive_ptr::reclaim() owning pointers that were created using weak_intrusive_ptr::release()."
      (one_target 0 0) /\
  ~ (weakcount_ (Target 0 0) <= 1 /\ refcount_ (Target 0 0) <> 0).
Proof.
  split; [reflexivity|]. split; [reflexivity|].
  cbn. intros [_ H]. apply H. reflexivity.
Qed.

(** ** Resetting a handle *)

(** C9: [reset()] on a strong handle whose target is in memory, and on a weak
    handle whose target is in memory and is not a target with live strong
    owners and weak count 1 (a state in which no weak unit exists), returns
    and leaves the handle at the sentinel, for which [defined()] is false and
    [use_count()] is 0; [reset()] and the destructor on a handle that already
    holds the sentinel return in the same state: no counter changed, no
    [release_resources], no deallocation; and a second [reset()] never adds
    anything to the first. *)
Theorem reset_idempotent `{NT : NullType.t} (s : state) :
  (forall (h : intrusive_ptr.t) t,
     heap s !! intrusive_ptr.target_ h = Some t -> target_in_range t ->
     exists s',
       intrusive_ptr.reset h s = Returned (intrusive_ptr.mk NullType.singleton) s' /\
       intrusive_ptr.defined (intrusive_ptr.mk NullType.singleton) = false /\
       intrusive_ptr.use_count (intrusive_ptr.mk NullType.singleton) s' = Returned 0 s') /\
  (forall (h : weak_intrusive_ptr.t) t,
     heap s !! weak_intrusive_ptr.target_ h = Some t -> target_in_range t ->
     ~ (weakcount_ t = 1 /\ refcount_ t <> 0) ->
     exists s',
       weak_intrusive_ptr.reset h s = Returned (weak_intrusive_ptr.mk NullType.singleton) s' /\
       weak_intrusive_ptr.use_count (weak_intrusive_ptr.mk NullType.singleton) s' = Returned 0 s' /\
       weak_intrusive_ptr.expired (weak_intrusive_ptr.mk NullType.singleton) s' = Returned true s') /\
  (intrusive_ptr.reset (intrusive_ptr.mk NullType.singleton) s =
     Returned (intrusive_ptr.mk NullType.singleton) s /\
   intrusive_ptr.destructor (intrusive_ptr.mk NullType.singleton) s =
     Returned (intrusive_ptr.mk NullType.singleton) s /\
   weak_intrusive_ptr.reset (weak_intrusive_ptr.mk NullType.singleton) s =
     Returned (weak_intrusive_ptr.mk NullType.singleton) s /\
   weak_intrusive_ptr.destructor (weak_intrusive_ptr.mk NullType.singleton) s =
     Returned (weak_intrusive_ptr.mk NullType.singleton) s) /\
  (forall h : intrusive_ptr.t,
     (h' <- intrusive_ptr.reset h ;; intrusive_ptr.reset h') s = intrusive_ptr.reset h s) /\
  (forall h : weak_intrusive_ptr.t,
     (h' <- weak_intrusive_ptr.reset h ;; weak_intrusive_ptr.reset h') s =
     weak_intrusive_ptr.reset h s).
Proof.
  assert (Huse : forall s', intrusive_ptr.use_count (intrusive_ptr.mk NullType.singleton) s' = Returned 0 s').
  { intros s'. unfold intrusive_ptr.use_count. cbn [intrusive_ptr.target_].
    rewrite is_null_true. reflexivity. }
  assert (Hwuse : forall s', weak_intrusive_ptr.use_count (weak_intrusive_ptr.mk NullType.singleton) s' = Returned 0 s').
  { intros s'. unfold weak_intrusive_ptr.use_count. cbn [weak_intrusive_ptr.target_].
    rewrite weak_is_null_true. reflexivity. }
  split; [|split; [|split; [|split]]].
  - intros [p] t Hp Hrange. cbn [intrusive_ptr.target_] in Hp.
    unfold intrusive_ptr.reset.
    destruct (N.eq_dec p NullType.singleton) as [-> | Hne].
    + exists s. rewrite strong_reset_null. split; [reflexivity|]. split; [|apply Huse].
      unfold intrusive_ptr.defined. cbn [intrusive_ptr.target_]. rewrite is_null_true. reflexivity.
    + exists (after_strong_reset s p t). rewrite (strong_reset_eq p s t Hne Hp Hrange).
      split; [reflexivity|]. split; [|apply Huse].
      unfold intrusive_ptr.defined. cbn [intrusive_ptr.target_]. rewrite is_null_true. reflexivity.
  - intros [p] t Hp Hrange Hok. cbn [weak_intrusive_ptr.target_] in Hp.
    unfold weak_intrusive_ptr.reset, weak_intrusive_ptr.expired.
    assert (Hexp : forall s', (n <- weak_intrusive_ptr.use_count (weak_intrusive_ptr.mk NullType.singleton);; ret (n =? 0)) s' = Returned true s').
    { intros s'. unfold bind. rewrite Hwuse. reflexivity. }
    destruct (N.eq_dec p NullType.singleton) as [-> | Hne].
    + exists s. rewrite weak_reset_null. auto.
    + rewrite (weak_reset_eq p s t Hne Hp Hrange).
      destruct (Z.eqb_spec (weakcount_ t) 1) as [Hw1 | Hw1].
      * destruct (Z.eqb_spec (refcount_ t) 0) as [Hr0 | Hr0]; [eauto | tauto].
      * eauto.
  - repeat split; first [apply strong_reset_null | apply weak_reset_null].
  - intros h. unfold intrusive_ptr.reset, bind.
    destruct (intrusive_ptr.reset_ h s) as [h' s' | | ] eqn:Heq; try reflexivity.
    assert (h' = intrusive_ptr.mk NullType.singleton) as ->.
    { unfold intrusive_ptr.reset_, bind in Heq.
      destruct (if negb _ then _ else _) in Heq; try discriminate.
      unfold ret in Heq. congruence. }
    apply strong_reset_null.
  - intros h. unfold weak_intrusive_ptr.reset, bind.
    destruct (weak_intrusive_ptr.reset_ h s) as [h' s' | | ] eqn:Heq; try reflexivity.
    assert (h' = weak_intrusive_ptr.mk NullType.singleton) as ->.
    { unfold weak_intrusive_ptr.reset_, bind in Heq.
      destruct (if negb _ then _ else _) in Heq; try discriminate.
      unfold ret in Heq. congruence. }
    apply weak_reset_null.
Qed.

Lemma reset_idempotent_witness :
  (exists s',
     intrusive_ptr.reset (intrusive_ptr.mk 1%N) (one_target 2 1) =
       Returned (intrusive_ptr.mk nullptr) s' /\
     intrusive_ptr.defined (intrusive_ptr.mk nullptr) = false /\
     intrusive_ptr.use_count (intrusive_ptr.mk nullptr) s' = Returned 0 s') /\
  (exists s',
     weak_intrusive_ptr.reset (weak_intrusive_ptr.mk 1%N) (one_target 1 2) =
       Returned (weak_intrusive_ptr.mk nullptr) s' /\
     weak_intrusive_ptr.use_count (weak_intrusive_ptr.mk nullptr) s' = Returned 0 s' /\
     weak_intrusive_ptr.expired (weak_intrusive_ptr.mk nullptr) s' = Returned true s').
Proof.
  split.
  - destruct (reset_idempotent (one_target 2 1)) as [H _].
    apply (H (intrusive_ptr.mk 1%N) (Target 2 1)); [reflexivity | in_range].
  - destruct (reset_idempotent (one_target 1 2)) as (_ & H & _).
    apply (H (weak_intrusive_ptr.mk 1%N) (Target 1 2)); [reflexivity | in_range |].
    cbn. intros [H1 _]. discriminate H1.
Defined.

(** ** Teardown in two phases *)

Section teardown.
Context `{NT : NullType.t}.

Lemma drop_weak_handles_zero p s : drop_weak_handles 0 p s = Returned tt s.
Proof. reflexivity. Qed.

Lemma drop_weak_handles_succ k p s :
  drop_weak_handles (S k) p s =
  (weak_intrusive_ptr.reset_ (weak_intrusive_ptr.mk p) ;; drop_weak_handles k p) s.
Proof. reflexivity. Qed.

(** Weak drops on a target without strong owners: the weak count goes down
    one by one, and the drop that reaches 0 frees the target. *)
Lemma drop_weak_handles_eq k : forall p s w,
  p <> NullType.singleton -> heap s !! p = Some (Target 0 w) -> in_size_t w ->
  Z.of_nat k <= w ->
  drop_weak_handles k p s =
  Returned tt
    (if Z.of_nat k =? w then
       if w =? 0 then s
       else {| heap := delete p (heap s); trace := trace s ++ [Delete p] |}
     else with_target s p (Target 0 (w - Z.of_nat k))).
Proof.
  induction k as [|k IH]; intros p s w Hne Hp Hw Hle.
  - rewrite drop_weak_handles_zero. change (Z.of_nat 0) with 0.
    destruct (Z.eqb_spec 0 w) as [<- | Hw0]; [reflexivity|].
    rewrite Z.sub_0_r, with_target_same by exact Hp. reflexivity.
  - rewrite drop_weak_handles_succ.
    assert (Hrange : target_in_range (Target 0 w)) by (split; [cbv; split; discriminate | exact Hw]).
    unfold bind. rewrite (weak_reset_eq p s _ Hne Hp Hrange). cbn [refcount_ weakcount_].
    change (0 =? 0) with true. cbv iota.
    destruct (Z.eqb_spec w 1) as [-> | Hw1].
    + assert (k = 0%nat) as -> by lia. reflexivity.
    + unfold in_size_t in Hw.
      rewrite size_t_pred by (unfold in_size_t; lia).
      rewrite (IH p _ (w - 1) Hne (with_target_lookup _ _ _)) by (unfold in_size_t; lia).
      destruct (Z.eqb_spec (Z.of_nat (S k)) w) as [Heq | Hneq].
      * destruct (Z.eqb_spec (Z.of_nat k) (w - 1)) as [_ | Hn]; [|lia].
        destruct (Z.eqb_spec (w - 1) 0) as [H0 | _]; [lia|].
        destruct (Z.eqb_spec w 0) as [H0 | _]; [lia|].
        unfold with_target. cbn [heap trace]. rewrite delete_insert_eq. reflexivity.
      * destruct (Z.eqb_spec (Z.of_nat k) (w - 1)) as [Hn | _]; [lia|].
        rewrite with_target_twice. do 3 f_equal. lia.
Qed.
End teardown.

(** C1: dropping the last strong handle of a target (strong count 1) returns
    after calling [release_resources()] exactly once.  The target is freed by
    that same drop exactly when the weak count is the phantom 1.  Otherwise the
    weak count is lowered by one and the target stays in memory; of the weak
    handles dropped afterwards, every one before the last leaves it in memory
    and the one that brings the weak count to 0 frees it, so that it is
    deleted once in all. *)
Theorem last_strong_drop_two_phase `{NT : NullType.t} (p : addr) (s : state)
    (t : intrusive_ptr_target) :
  p <> NullType.singleton -> heap s !! p = Some t ->
  refcount_ t = 1 -> in_size_t (weakcount_ t) ->
  exists s1,
    intrusive_ptr.reset_ (intrusive_ptr.mk p) s =
      Returned (intrusive_ptr.mk NullType.singleton) s1 /\
    (weakcount_ t = 1 ->
     heap s1 = delete p (heap s) /\
     trace s1 = trace s ++ [ReleaseResources p; Delete p]) /\
    (weakcount_ t <> 1 ->
     heap s1 = <[p := Target 0 (size_t (weakcount_ t - 1))]> (heap s) /\
     trace s1 = trace s ++ [ReleaseResources p]) /\
    (heap s1 !! p = None <-> weakcount_ t = 1) /\
    (weakcount_ t <> 1 ->
     forall k : nat,
       (Z.of_nat k < size_t (weakcount_ t - 1) ->
        drop_weak_handles k p s1 =
          Returned tt
            {| heap := <[p := Target 0 (size_t (weakcount_ t - 1) - Z.of_nat k)]> (heap s);
               trace := trace s ++ [ReleaseResources p] |}) /\
       (Z.of_nat k = size_t (weakcount_ t - 1) ->
        drop_weak_handles k p s1 =
          Returned tt
            {| heap := delete p (heap s);
               trace := trace s ++ [ReleaseResources p; Delete p] |})).
Proof.
  intros Hne Hp Hr1 Hw.
  assert (Hrange : target_in_range t).
  { split; [rewrite Hr1; cbv; split; discriminate | exact Hw]. }
  exists (after_strong_reset s p t).
  split; [apply (strong_reset_eq p s t Hne Hp Hrange)|].
  unfold after_strong_reset. rewrite Hr1. change (1 =? 1) with true. cbv iota.
  destruct (Z.eqb_spec (weakcount_ t) 1) as [Hw1 | Hw1].
  - split; [intros _; split; reflexivity|]. split; [tauto|].
    split; [|tauto]. cbn [heap]. rewrite lookup_delete_eq. tauto.
  - split; [tauto|]. split; [intros _; split; reflexivity|].
    split.
    { cbn [heap]. rewrite lookup_insert_eq. split; [discriminate | tauto]. }
    intros _ k.
    set (w' := size_t (weakcount_ t - 1)).
    assert (Hw' : in_size_t w') by apply size_t_range.
    assert (Hw'0 : w' <> 0).
    { intros H0. pose proof (size_t_pred_is_zero _ Hw) as Hz. fold w' in Hz.
      rewrite H0 in Hz. cbn in Hz. symmetry in Hz. apply Z.eqb_eq in Hz. contradiction. }
    set (s1 := {| heap := <[p:=Target 0 w']> (heap s); trace := trace s ++ [ReleaseResources p] |}).
    assert (Hp1 : heap s1 !! p = Some (Target 0 w')) by apply lookup_insert_eq.
    split; intros Hk.
    + rewrite (drop_weak_handles_eq k p s1 w' Hne Hp1 Hw') by lia.
      destruct (Z.eqb_spec (Z.of_nat k) w') as [Heq | _]; [lia|].
      unfold with_target, s1. cbn [heap trace]. rewrite insert_insert_eq. reflexivity.
    + rewrite (drop_weak_handles_eq k p s1 w' Hne Hp1 Hw') by lia.
      destruct (Z.eqb_spec (Z.of_nat k) w') as [_ | Hn]; [|lia].
      destruct (Z.eqb_spec w' 0) as [H0 | _]; [contradiction|].
      unfold s1. cbn [heap trace]. rewrite delete_insert_eq, <- app_assoc. reflexivity.
Qed.

Lemma last_strong_drop_two_phase_witness :
  exists s1,
    intrusive_ptr.reset_ (intrusive_ptr.mk 1%N) (one_target 1 3) =
      Returned (intrusive_ptr.mk nullptr) s1 /\
    trace s1 = [ReleaseResources 1%N] /\
    drop_weak_handles 1 1%N s1 =
      Returned tt {| heap := <[1%N := Target 0 1]> (heap (one_target 1 3));
                     trace := [ReleaseResources 1%N] |} /\
    drop_weak_handles 2 1%N s1 =
      Returned tt {| heap := delete 1%N (heap (one_target 1 3));
                     trace := [ReleaseResources 1%N; Delete 1%N] |}.
Proof.
  destruct (last_strong_drop_two_phase 1%N (one_target 1 3) (Target 1 3))
    as (s1 & Hreset & _ & Hlater & _ & Hdrops);
    [discriminate | reflexivity | reflexivity | cbv; split; discriminate |].
  exists s1. split; [exact Hreset|].
  split; [apply Hlater; discriminate|].
  split.
  - apply (Hdrops ltac:(discriminate) 1%nat). reflexivity.
  - apply (Hdrops ltac:(discriminate) 2%nat). reflexivity.
Defined.

(** ** Promotion of a weak handle *)

Section lock_equations.
Context `{NT : NullType.t}.

Lemma compare_exchange_weak_eq p s t desired spurious :
  heap s !! p = Some t ->
  compare_exchange_weak p (refcount_ t) desired spurious s =
  if spurious then Returned (false, refcount_ t) s
  else Returned (true, refcount_ t) (with_target s p (Target desired (weakcount_ t))).
Proof.
  intros Hp. unfold compare_exchange_weak. run.
  rewrite Z.eqb_refl. destruct spurious; cbn [orb negb]; [reflexivity|].
  run. reflexivity.
Qed.

(** With more fuel than scheduled spurious failures the loop ends in a
    successful exchange. *)
Lemma lock_loop_eq fuel : forall spurious p s t,
  (length spurious < fuel)%nat -> heap s !! p = Some t -> refcount_ t <> 0 ->
  weak_intrusive_ptr.lock_loop fuel spurious (weak_intrusive_ptr.mk p) (refcount_ t) s =
  Returned (Some (intrusive_ptr.mk p))
    (with_target s p (Target (size_t (refcount_ t + 1)) (weakcount_ t))).
Proof.
  induction fuel as [|fuel IH]; intros spurious p s t Hfuel Hp Hr; [lia|].
  cbn [weak_intrusive_ptr.lock_loop weak_intrusive_ptr.target_].
  destruct (Z.eqb_spec (refcount_ t) 0) as [H0 | _]; [contradiction|].
  unfold bind. rewrite (compare_exchange_weak_eq p s t _ _ Hp).
  destruct spurious as [|[|] rest]; cbn [hd tl fst snd]; try reflexivity.
  apply IH; [cbn [length] in Hfuel; lia | exact Hp | exact Hr].
Qed.
End lock_equations.

(** C2: [lock()] on a weak handle that holds the sentinel, or whose target has
    strong count 0, returns the empty strong handle in an unchanged state;
    on a target with strong count n > 0 it returns a strong handle on the same
    address, which is not the sentinel, and leaves the strong count at n + 1
    ([size_t] arithmetic; the integer successor below [SIZE_MAX]), however
    many times the exchange fails spuriously, provided the loop is given more
    iterations than that. *)
Theorem lock_promotes_or_empty `{NT : NullType.t} (this : weak_intrusive_ptr.t)
    (s : state) (fuel : nat) (spurious : list bool) :
  (weak_intrusive_ptr.target_ this = NullType.singleton ->
   weak_intrusive_ptr.lock fuel spurious this s =
     Returned (Some (intrusive_ptr.mk NullType.singleton)) s) /\
  (forall t,
     heap s !! weak_intrusive_ptr.target_ this = Some t -> refcount_ t = 0 ->
     weak_intrusive_ptr.lock fuel spurious this s =
       Returned (Some (intrusive_ptr.mk NullType.singleton)) s) /\
  (forall t,
     weak_intrusive_ptr.target_ this <> NullType.singleton ->
     heap s !! weak_intrusive_ptr.target_ this = Some t ->
     in_size_t (refcount_ t) -> 0 < refcount_ t ->
     (length spurious < fuel)%nat ->
     let h := intrusive_ptr.mk (weak_intrusive_ptr.target_ this) in
     let s' := with_target s (weak_intrusive_ptr.target_ this)
                 (Target (size_t (refcount_ t + 1)) (weakcount_ t)) in
     weak_intrusive_ptr.lock fuel spurious this s = Returned (Some h) s' /\
     intrusive_ptr.defined h = true /\
     (refcount_ t < SIZE_MAX ->
      size_t (refcount_ t + 1) = refcount_ t + 1 /\
      intrusive_ptr.use_count h s' = Returned (refcount_ t + 1) s')).
Proof.
  destruct this as [p]. cbn [weak_intrusive_ptr.target_].
  split; [|split].
  - intros ->. unfold weak_intrusive_ptr.lock, weak_intrusive_ptr.expired,
      weak_intrusive_ptr.use_count. cbn [weak_intrusive_ptr.target_].
    rewrite weak_is_null_true. reflexivity.
  - intros t Hp H0. unfold weak_intrusive_ptr.lock, weak_intrusive_ptr.expired,
      weak_intrusive_ptr.use_count. cbn [weak_intrusive_ptr.target_].
    destruct (weak_intrusive_ptr.is_null p); [reflexivity|].
    run. rewrite H0. reflexivity.
  - intros t Hne Hp Hr Hpos Hfuel.
    assert (Hr0 : refcount_ t <> 0) by lia.
    split; [|split].
    + unfold weak_intrusive_ptr.lock, weak_intrusive_ptr.expired,
        weak_intrusive_ptr.use_count. cbn [weak_intrusive_ptr.target_].
      rewrite (weak_is_null_false _ Hne). run.
      destruct (Z.eqb_spec (refcount_ t) 0) as [|_]; [contradiction|].
      run. apply lock_loop_eq; assumption.
    + unfold intrusive_ptr.defined. cbn [intrusive_ptr.target_].
      rewrite (is_null_false _ Hne). reflexivity.
    + intros Hlt. rewrite (size_t_succ _ Hr Hlt). split; [reflexivity|].
      unfold intrusive_ptr.use_count. cbn [intrusive_ptr.target_].
      rewrite (is_null_false _ Hne).
      rewrite (load_refcount_eq _ _ _ (with_target_lookup _ _ _)). reflexivity.
Qed.

Lemma lock_promotes_or_empty_witness :
  weak_intrusive_ptr.lock 3 [true; true] (weak_intrusive_ptr.mk 1%N) (one_target 2 2) =
    Returned (Some (intrusive_ptr.mk 1%N)) (with_target (one_target 2 2) 1%N (Target 3 2)) /\
  weak_intrusive_ptr.lock 3 [true; true] (weak_intrusive_ptr.mk 1%N) (one_target 0 1) =
    Returned (Some (intrusive_ptr.mk nullptr)) (one_target 0 1) /\
  weak_intrusive_ptr.lock 3 [true; true] (weak_intrusive_ptr.mk nullptr) (one_target 2 2) =
    Returned (Some (intrusive_ptr.mk nullptr)) (one_target 2 2).
Proof.
  split; [|split].
  - destruct (lock_promotes_or_empty (weak_intrusive_ptr.mk 1%N) (one_target 2 2) 3 [true; true])
      as (_ & _ & H).
    destruct (H (Target 2 2)) as [H' _];
      [discriminate | reflexivity | cbv; split; discriminate | reflexivity | cbn; lia |].
    exact H'.
  - destruct (lock_promotes_or_empty (weak_intrusive_ptr.mk 1%N) (one_target 0 1) 3 [true; true])
      as (_ & H & _).
    apply (H (Target 0 1)); reflexivity.
  - destruct (lock_promotes_or_empty (weak_intrusive_ptr.mk nullptr) (one_target 2 2) 3 [true; true])
      as (H & _).
    apply H. reflexivity.
Defined.

(** ** The factory *)

Section make_equations.
Context `{NT : NullType.t}.

Lemma alloc_fresh s : heap s !! alloc s = None /\ alloc s <> NullType.singleton.
Proof.
  unfold alloc.
  pose proof (is_fresh ({[NullType.singleton]} ∪ dom (heap s))) as Hfresh.
  split.
  - apply not_elem_of_dom. set_solver.
  - set_solver.
Qed.

Lemma new_eq ctor s s1 :
  ctor (alloc s) (with_target s (alloc s) fresh_target) = Returned tt s1 ->
  new_ ctor s = Returned (alloc s) s1.
Proof.
  intros Hctor. unfold new_. cbv zeta.
  unfold bind at 1, write.
  fold (with_target s (alloc s) fresh_target).
  rewrite (bind_returned _ _ _ _ _ Hctor). reflexivity.
Qed.

Lemma make_eq ctor s s1 t :
  ctor (alloc s) (with_target s (alloc s) fresh_target) = Returned tt s1 ->
  heap s1 !! alloc s = Some t ->
  intrusive_ptr.make ctor s =
  if (refcount_ t =? 0) && (weakcount_ t =? 0)
  then Returned (intrusive_ptr.mk (alloc s)) (with_target s1 (alloc s) (Target 1 1))
  else Aborted "make" make_failure s1.
Proof.
  intros Hctor Hp. unfold intrusive_ptr.make.
  rewrite (bind_returned _ _ _ _ _ (new_eq _ _ _ Hctor)).
  unfold intrusive_ptr.from_raw_dont_increase. cbn [intrusive_ptr.target_].
  run. destruct (refcount_ t =? 0) eqn:Hr; cbn [andb].
  - run. destruct (weakcount_ t =? 0) eqn:Hw.
    + run. cbn [refcount_ weakcount_]. rewrite with_target_twice. reflexivity.
    + reflexivity.
  - run. reflexivity.
Qed.
End make_equations.

(** C3: [make] takes an address that held no target, and, when the target's
    constructor leaves both counters at 0, returns a handle on it with strong
    count and weak count both exactly 1; the two counters are stored, not
    raised through the retain path, which on that freshly constructed target
    stops the program; when the constructor leaves a counter non-zero, [make]
    stops the program instead of returning. *)
Theorem make_sets_counts_to_one `{NT : NullType.t} (ctor : addr -> M unit)
    (s s1 : state) (t : intrusive_ptr_target) :
  let p := alloc s in
  ctor p (with_target s p fresh_target) = Returned tt s1 ->
  heap s1 !! p = Some t -> target_in_range t ->
  heap s !! p = None /\ p <> NullType.singleton /\
  (refcount_ t = 0 /\ weakcount_ t = 0 ->
   let s' := with_target s1 p (Target 1 1) in
   intrusive_ptr.make ctor s = Returned (intrusive_ptr.mk p) s' /\
   intrusive_ptr.use_count (intrusive_ptr.mk p) s' = Returned 1 s' /\
   intrusive_ptr.weak_use_count (intrusive_ptr.mk p) s' = Returned 1 s' /\
   intrusive_ptr.retain_ (intrusive_ptr.mk p) s1 =
     Aborted "retain_" "intrusive_ptr: Cannot increase refcount after it reached zero."
       (with_target s1 p (Target 1 0))) /\
  (~ (refcount_ t = 0 /\ weakcount_ t = 0) ->
   intrusive_ptr.make ctor s = Aborted "make" make_failure s1).
Proof.
  intros p Hctor Hp [Hr Hw].
  destruct (alloc_fresh s) as [Hfresh Hne]. fold p in Hfresh, Hne.
  split; [exact Hfresh|]. split; [exact Hne|].
  rewrite (make_eq ctor s s1 t Hctor Hp). fold p.
  split.
  - intros [Hr0 Hw0]. rewrite Hr0, Hw0. cbn [Z.eqb andb].
    split; [reflexivity|].
    unfold intrusive_ptr.use_count, intrusive_ptr.weak_use_count.
    cbn [intrusive_ptr.target_]. rewrite (is_null_false _ Hne).
    rewrite (load_refcount_eq _ _ _ (with_target_lookup _ _ _)).
    rewrite (load_weakcount_eq _ _ _ (with_target_lookup _ _ _)).
    split; [reflexivity|]. split; [reflexivity|].
    rewrite (retain_eq p s1 t Hne Hp Hr), Hr0, Hw0. reflexivity.
  - intros Hnz.
    destruct (Z.eqb_spec (refcount_ t) 0), (Z.eqb_spec (weakcount_ t) 0);
      cbn [andb]; tauto.
Qed.

Lemma make_sets_counts_to_one_witness :
  intrusive_ptr.make plain_ctor (one_target 1 1) =
    Returned (intrusive_ptr.mk 2%N)
      (with_target (one_target 1 1) 2%N (Target 1 1)) /\
  intrusive_ptr.make self_registering_ctor (one_target 1 1) =
    Aborted "make" make_failure (with_target (one_target 1 1) 2%N (Target 1 0)).
Proof.
  split.
  - destruct (make_sets_counts_to_one plain_ctor (one_target 1 1)
                (with_target (one_target 1 1) 2%N (Target 0 0)) (Target 0 0))
      as (_ & _ & H & _); [reflexivity | reflexivity | in_range |].
    destruct H as [H _]; [split; reflexivity|].
    vm_compute in H. vm_compute. exact H.
  - destruct (make_sets_counts_to_one self_registering_ctor (one_target 1 1)
                (with_target (one_target 1 1) 2%N (Target 1 0)) (Target 1 0))
      as (_ & _ & _ & H); [vm_compute; reflexivity | vm_compute; reflexivity | in_range |].
    vm_compute in H. vm_compute. apply H. intros [H1 _]. discriminate H1.
Defined.

(** ** Failure of an assertion *)

Section failure_equations.
Context `{NT : NullType.t}.

Lemma unsafe_reclaim_from_nonowning_eq p s t :
  p <> NullType.singleton -> heap s !! p = Some t -> in_size_t (refcount_ t) ->
  intrusive_ptr.unsafe_reclaim_from_nonowning p s =
  if refcount_ t >? 0
  then Returned (intrusive_ptr.mk p)
         (with_target s p (Target (size_t (refcount_ t + 1)) (weakcount_ t)))
  else Aborted "unsafe_reclaim_from_nonowning"
         "intrusive_ptr can only reclaim pointers that are owned by someone" s.
Proof.
  intros Hne Hp Hr. unfold intrusive_ptr.unsafe_reclaim_from_nonowning.
  rewrite (is_null_false _ Hne). run.
  destruct (Z.gtb_spec (refcount_ t) 0) as [Hpos | Hle].
  - run. unfold intrusive_ptr.reclaim, intrusive_ptr.from_raw_dont_increase. run.
    erewrite bind_returned.
    2:{ rewrite (retain_eq p s t Hne Hp Hr).
        destruct (Z.eqb_spec (refcount_ t) 0); [lia | reflexivity]. }
    reflexivity.
  - reflexivity.
Qed.
End failure_equations.

(** [make_rest] and [make_weak_rest] are [make] and [make_weak] cut after the
    construction of the local handle. *)
Lemma make_split `{NT : NullType.t} ctor s :
  intrusive_ptr.make ctor s =
  (p <- new_ ctor ;; make_rest (intrusive_ptr.from_raw_dont_increase p)) s.
Proof. reflexivity. Qed.

Lemma make_weak_split self s :
  raw_intrusive_ptr.make_weak self s =
  (ptr <- intrusive_ptr.reclaim self ;; make_weak_rest ptr) s.
Proof. reflexivity. Qed.







(** * Further properties of the code *)

Lemma size_t_succ_pred z : in_size_t z -> size_t (size_t (z + 1) - 1) = z.
Proof.
  intros Hz. destruct (Z.eq_dec z SIZE_MAX) as [-> | Hne]; [reflexivity|].
  unfold in_size_t in Hz. rewrite size_t_succ by (unfold in_size_t; lia).
  replace (z + 1 - 1) with z by lia. apply size_t_id. exact Hz.
Qed.

Lemma target_eta t : Target (refcount_ t) (weakcount_ t) = t.
Proof. destruct t; reflexivity. Qed.

(** ** Temporaries *)

(** X1: a temporary copy of a strong handle leaves no trace: copying a handle
    whose target has a strong count of at least 1 and destroying the copy
    returns in exactly the state it started from, with no hook call and no
    deallocation. *)
Theorem temporary_strong_copy_restores `{NT : NullType.t} (p : addr) (s : state)
    (t : intrusive_ptr_target) :
  p <> NullType.singleton -> heap s !! p = Some t -> target_in_range t ->
  1 <= refcount_ t ->
  (h <- intrusive_ptr.copy (intrusive_ptr.mk p) ;; intrusive_ptr.destructor h) s =
  Returned (intrusive_ptr.mk NullType.singleton) s.
Proof.
  intros Hne Hp [Hr Hw] Hpos.
  erewrite bind_returned.
  2:{ rewrite (strong_copy_eq p s t Hne Hp Hr).
      destruct (Z.eqb_spec (refcount_ t) 0); [lia | reflexivity]. }
  unfold intrusive_ptr.destructor.
  rewrite (strong_reset_eq p _ _ Hne (with_target_lookup _ _ _))
    by (split; [apply size_t_range | exact Hw]).
  unfold after_strong_reset. cbn [refcount_ weakcount_].
  rewrite (size_t_succ_is_one _ Hr).
  destruct (Z.eqb_spec (refcount_ t) 0); [lia|].
  rewrite with_target_twice, (size_t_succ_pred _ Hr), target_eta.
  rewrite (with_target_same _ _ _ Hp). reflexivity.
Qed.

Lemma temporary_strong_copy_restores_witness :
  (h <- intrusive_ptr.copy (intrusive_ptr.mk 1%N) ;; intrusive_ptr.destructor h)
    (one_target 1 1) =
  Returned (intrusive_ptr.mk nullptr) (one_target 1 1).
Proof.
  apply (@temporary_strong_copy_restores intrusive_target_default_null_type
           1%N (one_target 1 1) (Target 1 1));
    [discriminate | reflexivity | in_range | discriminate].
Defined.

(** X2: a temporary weak observer leaves no trace: building a weak handle from
    a strong handle whose target has a weak count of at least 1 and destroying
    it returns in exactly the state it started from. *)
Theorem temporary_weak_observer_restores `{NT : NullType.t} (p : addr) (s : state)
    (t : intrusive_ptr_target) :
  p <> NullType.singleton -> heap s !! p = Some t -> target_in_range t ->
  1 <= weakcount_ t ->
  (w <- weak_intrusive_ptr.from_strong (intrusive_ptr.mk p) ;;
   weak_intrusive_ptr.destructor w) s =
  Returned (weak_intrusive_ptr.mk NullType.singleton) s.
Proof.
  intros Hne Hp [Hr Hw] Hpos.
  erewrite bind_returned.
  2:{ rewrite (weak_from_strong_eq p s t Hne Hp Hw).
      destruct (Z.eqb_spec (weakcount_ t) 0); [lia | reflexivity]. }
  unfold weak_intrusive_ptr.destructor.
  rewrite (weak_reset_eq p _ _ Hne (with_target_lookup _ _ _))
    by (split; [exact Hr | apply size_t_range]).
  cbn [refcount_ weakcount_].
  rewrite (size_t_succ_is_one _ Hw).
  destruct (Z.eqb_spec (weakcount_ t) 0); [lia|].
  rewrite with_target_twice, (size_t_succ_pred _ Hw), target_eta.
  rewrite (with_target_same _ _ _ Hp). reflexivity.
Qed.

Lemma temporary_weak_observer_restores_witness :
  (w <- weak_intrusive_ptr.from_strong (intrusive_ptr.mk 1%N) ;;
   weak_intrusive_ptr.destructor w) (one_target 1 1) =
  Returned (weak_intrusive_ptr.mk nullptr) (one_target 1 1).
Proof.
  apply (@temporary_weak_observer_restores intrusive_target_default_null_type
           1%N (one_target 1 1) (Target 1 1));
    [discriminate | reflexivity | in_range | discriminate].
Defined.

(** ** What a drop never does *)

(** X3: a strong drop at any strong count other than 1 calls no hook and
    frees nothing: the event log and the weak count stay as they were and the
    target stays in memory with its strong count lowered by one in [size_t]
    arithmetic.  There is no guard against underflow: at strong count 0 the
    count becomes [SIZE_MAX]. *)
Theorem strong_drop_not_last `{NT : NullType.t} (p : addr) (s : state)
    (t : intrusive_ptr_target) :
  p <> NullType.singleton -> heap s !! p = Some t -> target_in_range t ->
  refcount_ t <> 1 ->
  exists s',
    intrusive_ptr.reset_ (intrusive_ptr.mk p) s =
      Returned (intrusive_ptr.mk NullType.singleton) s' /\
    trace s' = trace s /\
    heap s' !! p = Some (Target (size_t (refcount_ t - 1)) (weakcount_ t)) /\
    (2 <= refcount_ t -> size_t (refcount_ t - 1) = refcount_ t - 1) /\
    (refcount_ t = 0 -> size_t (refcount_ t - 1) = SIZE_MAX) /\
    (forall q, q <> p -> heap s' !! q = heap s !! q).
Proof.
  intros Hne Hp Hrange Hr1.
  exists (with_target s p (Target (size_t (refcount_ t - 1)) (weakcount_ t))).
  rewrite (strong_reset_eq p s t Hne Hp Hrange). unfold after_strong_reset.
  destruct (Z.eqb_spec (refcount_ t) 1); [contradiction|].
  split; [reflexivity|]. split; [reflexivity|].
  split; [apply with_target_lookup|].
  destruct Hrange as [Hr _]. unfold in_size_t in Hr.
  split; [intros; apply size_t_pred; [exact Hr | lia]|].
  split; [intros ->; reflexivity|].
  intros q Hq. apply with_target_lookup_ne. congruence.
Qed.

Lemma strong_drop_not_last_witness :
  exists s',
    intrusive_ptr.reset_ (intrusive_ptr.mk 1%N) (one_target 0 0) =
      Returned (intrusive_ptr.mk nullptr) s' /\
    trace s' = [] /\
    heap s' !! 1%N = Some (Target SIZE_MAX 0).
Proof.
  destruct (strong_drop_not_last 1%N (one_target 0 0) (Target 0 0))
    as (s' & H1 & H2 & H3 & _); [discriminate | reflexivity | in_range | discriminate |].
  exists s'. split; [exact H1|]. split; [exact H2 | exact H3].
Defined.

(** X4: a weak drop never frees a target that still has strong owners: when
    the strong count is not 0, the drop either returns with the target still
    in memory and nothing logged (weak count other than 1), or, at weak count
    1, is stopped by the assertion of the target's destructor before the
    memory is released.  The target is freed by a weak drop exactly when the
    weak count is 1 and the strong count is 0. *)
Theorem weak_drop_never_frees_owned `{NT : NullType.t} (p : addr) (s : state)
    (t : intrusive_ptr_target) :
  p <> NullType.singleton -> heap s !! p = Some t -> target_in_range t ->
  (refcount_ t <> 0 ->
   forall h s',
     weak_intrusive_ptr.reset_ (weak_intrusive_ptr.mk p) s = Returned h s' ->
     trace s' = trace s /\ weakcount_ t <> 1 /\
     heap s' !! p = Some (Target (refcount_ t) (size_t (weakcount_ t - 1)))) /\
  (refcount_ t <> 0 ->
   forall f msg s',
     weak_intrusive_ptr.reset_ (weak_intrusive_ptr.mk p) s = Aborted f msg s' ->
     trace s' = trace s /\ weakcount_ t = 1 /\ f = "~intrusive_ptr_target" /\
     heap s' !! p = Some (Target (refcount_ t) 0)) /\
  weak_intrusive_ptr.reset_ (weak_intrusive_ptr.mk p) s <> Undefined /\
  ((exists h s', weak_intrusive_ptr.reset_ (weak_intrusive_ptr.mk p) s = Returned h s' /\
                 heap s' !! p = None) <->
   weakcount_ t = 1 /\ refcount_ t = 0).
Proof.
  intros Hne Hp Hrange.
  rewrite (weak_reset_eq p s t Hne Hp Hrange).
  destruct (Z.eqb_spec (weakcount_ t) 1) as [Hw1 | Hw1];
    destruct (Z.eqb_spec (refcount_ t) 0) as [Hr0 | Hr0].
  - split; [tauto|]. split; [tauto|]. split; [discriminate|]. split; [tauto|].
    intros _. eexists _, _. split; [reflexivity|]. cbn [heap]. apply lookup_delete_eq.
  - split; [intros _ h s' H; discriminate H|].
    split.
    + intros _ f msg s' H. injection H as <- <- <-.
      split; [reflexivity|]. split; [exact Hw1|]. split; [reflexivity|].
      apply with_target_lookup.
    + split; [discriminate|]. split; [intros (h & s' & H & _); discriminate H | tauto].
  - split; [tauto|]. split; [tauto|]. split; [discriminate|].
    split; [|tauto]. intros (h & s' & H & Hnone). injection H as <- <-.
    rewrite with_target_lookup in Hnone. discriminate.
  - split.
    + intros _ h s' H. injection H as <- <-.
      split; [reflexivity|]. split; [exact Hw1|]. apply with_target_lookup.
    + split; [intros _ f msg s' H; discriminate H|]. split; [discriminate|].
      split; [|tauto]. intros (h & s' & H & Hnone). injection H as <- <-.
      rewrite with_target_lookup in Hnone. discriminate.
Qed.

Lemma weak_drop_never_frees_owned_witness :
  weak_intrusive_ptr.reset_ (weak_intrusive_ptr.mk 1%N) (one_target 1 1) <> Undefined /\
  exists h s',
    weak_intrusive_ptr.reset_ (weak_intrusive_ptr.mk 1%N) (one_target 0 1) = Returned h s' /\
    heap s' !! 1%N = None.
Proof.
  split.
  - destruct (weak_drop_never_frees_owned 1%N (one_target 1 1) (Target 1 1))
      as (_ & _ & H & _); [discriminate | reflexivity | in_range | ].
    exact H.
  - destruct (weak_drop_never_frees_owned 1%N (one_target 0 1) (Target 0 1))
      as (_ & _ & _ & H); [discriminate | reflexivity | in_range | ].
    apply H. split; reflexivity.
Defined.

(** ** Counting live handles *)

Lemma bind_ext {A B} (m : M A) (k1 k2 : A -> M B) s :
  (forall a s', k1 a s' = k2 a s') -> bind m k1 s = bind m k2 s.
Proof. intros H. unfold bind. destruct (m s); auto. Qed.

Section counting.
Context `{NT : NullType.t}.

Lemma copy_handle_times_eq k : forall p s r w,
  p <> NullType.singleton -> heap s !! p = Some (Target r w) ->
  1 <= r -> r + Z.of_nat k <= SIZE_MAX ->
  copy_handle_times k (intrusive_ptr.mk p) s =
  Returned tt (with_target s p (Target (r + Z.of_nat k) w)).
Proof.
  induction k as [|k IH]; intros p s r w Hne Hp Hpos Hmax.
  - cbn [copy_handle_times]. unfold ret. rewrite Z.add_0_r.
    rewrite (with_target_same _ _ _ Hp). reflexivity.
  - cbn [copy_handle_times].
    assert (Hr : in_size_t r) by (unfold in_size_t; lia).
    erewrite bind_returned.
    2:{ rewrite (strong_copy_eq p s _ Hne Hp Hr). cbn [refcount_ weakcount_].
        destruct (Z.eqb_spec r 0); [lia | reflexivity]. }
    rewrite size_t_succ by (exact Hr || lia).
    rewrite (IH p _ (r + 1) w Hne (with_target_lookup _ _ _)) by lia.
    rewrite with_target_twice. do 3 f_equal. lia.
Qed.

Lemma drop_strong_handles_eq k : forall p s r w,
  p <> NullType.singleton -> heap s !! p = Some (Target r w) ->
  in_size_t r -> in_size_t w -> Z.of_nat k < r ->
  drop_strong_handles k p s =
  Returned tt (with_target s p (Target (r - Z.of_nat k) w)).
Proof.
  induction k as [|k IH]; intros p s r w Hne Hp Hr Hw Hlt.
  - cbn [drop_strong_handles]. unfold ret. rewrite Z.sub_0_r.
    rewrite (with_target_same _ _ _ Hp). reflexivity.
  - cbn [drop_strong_handles]. unfold intrusive_ptr.destructor.
    erewrite bind_returned
      by (apply (strong_reset_eq p s _ Hne Hp); split; assumption).
    unfold after_strong_reset. cbn [refcount_ weakcount_].
    destruct (Z.eqb_spec r 1); [lia|].
    unfold in_size_t in Hr.
    rewrite size_t_pred by (unfold in_size_t; lia).
    rewrite (IH p _ (r - 1) w Hne (with_target_lookup _ _ _))
      by (unfold in_size_t in *; lia).
    rewrite with_target_twice. do 3 f_equal. lia.
Qed.

Lemma drop_strong_handles_app j k p s :
  drop_strong_handles (j + k) p s = (drop_strong_handles j p ;; drop_strong_handles k p) s.
Proof.
  revert s. induction j as [|j IH]; intros s; [reflexivity|].
  cbn [Nat.add drop_strong_handles]. rewrite bind_assoc.
  apply bind_ext. intros _ s'. apply IH.
Qed.
End counting.

(** X5: [use_count()] counts the live strong handles.  Starting from a target
    with [r >= 1] strong handles, after [n] copies and [k] drops with
    [k < r + n] the hook has not run, nothing is freed, the weak count is
    untouched and [use_count()] reads [r + n - k]; when all [r + n] handles
    are dropped, the state is the one the last drop of a single handle
    produces: the hook has run once. *)
Theorem use_count_counts_live_handles `{NT : NullType.t} (p : addr) (s : state)
    (r w : Z) (n k : nat) :
  p <> NullType.singleton -> heap s !! p = Some (Target r w) ->
  1 <= r -> in_size_t w -> r + Z.of_nat n <= SIZE_MAX ->
  (Z.of_nat k < r + Z.of_nat n ->
   let s' := with_target s p (Target (r + Z.of_nat n - Z.of_nat k) w) in
   (copy_handle_times n (intrusive_ptr.mk p) ;; drop_strong_handles k p ;;
    intrusive_ptr.use_count (intrusive_ptr.mk p)) s =
   Returned (r + Z.of_nat n - Z.of_nat k) s' /\
   trace s' = trace s) /\
  (Z.of_nat k = r + Z.of_nat n ->
   (copy_handle_times n (intrusive_ptr.mk p) ;; drop_strong_handles k p) s =
   Returned tt (after_strong_reset s p (Target 1 w))).
Proof.
  intros Hne Hp Hpos Hw Hmax.
  assert (Hcopies := copy_handle_times_eq n p s r w Hne Hp Hpos Hmax).
  set (s1 := with_target s p (Target (r + Z.of_nat n) w)) in *.
  assert (Hp1 : heap s1 !! p = Some (Target (r + Z.of_nat n) w))
    by apply with_target_lookup.
  assert (Hr1 : in_size_t (r + Z.of_nat n)) by (unfold in_size_t; lia).
  split.
  - intros Hk. split; [|reflexivity].
    rewrite (bind_returned _ _ _ _ _ Hcopies).
    rewrite (bind_returned _ _ _ _ _
               (drop_strong_handles_eq k p s1 _ w Hne Hp1 Hr1 Hw Hk)).
    unfold s1. rewrite with_target_twice.
    unfold intrusive_ptr.use_count. cbn [intrusive_ptr.target_].
    rewrite (is_null_false _ Hne).
    rewrite (load_refcount_eq _ _ _ (with_target_lookup _ _ _)). reflexivity.
  - intros Hk.
    rewrite (bind_returned _ _ _ _ _ Hcopies).
    destruct k as [|k]; [lia|].
    replace (S k) with (k + 1)%nat by lia.
    rewrite drop_strong_handles_app.
    rewrite (bind_returned _ _ _ _ _
               (drop_strong_handles_eq k p s1 _ w Hne Hp1 Hr1 Hw ltac:(lia))).
    unfold s1. rewrite with_target_twice.
    replace (r + Z.of_nat n - Z.of_nat k) with 1 by lia.
    cbn [drop_strong_handles]. unfold intrusive_ptr.destructor.
    erewrite bind_returned.
    2:{ eapply strong_reset_eq; [exact Hne | apply with_target_lookup |].
        split; [cbv; split; discriminate | exact Hw]. }
    unfold ret, after_strong_reset, with_target. cbn [refcount_ weakcount_ heap trace].
    change (1 =? 1) with true. cbv iota.
    destruct (w =? 1).
    + rewrite delete_insert_eq. reflexivity.
    + rewrite insert_insert_eq. reflexivity.
Qed.

Lemma use_count_counts_live_handles_witness :
  (copy_handle_times 3 (intrusive_ptr.mk 1%N) ;; drop_strong_handles 2 1%N ;;
   intrusive_ptr.use_count (intrusive_ptr.mk 1%N)) (one_target 1 1) =
  Returned 2 (with_target (one_target 1 1) 1%N (Target 2 1)) /\
  (copy_handle_times 3 (intrusive_ptr.mk 1%N) ;; drop_strong_handles 4 1%N) (one_target 1 1) =
  Returned tt {| heap := delete 1%N (heap (one_target 1 1));
                 trace := [ReleaseResources 1%N; Delete 1%N] |}.
Proof.
  split.
  - destruct (@use_count_counts_live_handles intrusive_target_default_null_type
                1%N (one_target 1 1) 1 1 3 2) as [H _];
      [discriminate | reflexivity | discriminate | cbv; split; discriminate
      | discriminate |].
    destruct H as [H _]; [reflexivity|]. exact H.
  - destruct (@use_count_counts_live_handles intrusive_target_default_null_type
                1%N (one_target 1 1) 1 1 3 4) as [_ H];
      [discriminate | reflexivity | discriminate | cbv; split; discriminate
      | discriminate |].
    apply H. reflexivity.
Defined.

(** ** Adopting a pointer nobody handed over *)

(** X6: [unsafe_reclaim_from_nonowning] checks before it counts.  On the
    sentinel it returns the sentinel handle and changes nothing; on a target
    with a positive strong count it returns a handle on it with the strong
    count raised by one, and destroying that handle restores the state; on a
    target with strong count 0 it stops the program with the counters
    untouched. *)
Theorem unsafe_reclaim_checks_first `{NT : NullType.t} (s : state) :
  intrusive_ptr.unsafe_reclaim_from_nonowning NullType.singleton s =
    Returned (intrusive_ptr.mk NullType.singleton) s /\
  (forall p t,
     p <> NullType.singleton -> heap s !! p = Some t -> target_in_range t ->
     (0 < refcount_ t ->
      intrusive_ptr.unsafe_reclaim_from_nonowning p s =
        Returned (intrusive_ptr.mk p)
          (with_target s p (Target (size_t (refcount_ t + 1)) (weakcount_ t))) /\
      (h <- intrusive_ptr.unsafe_reclaim_from_nonowning p ;;
       intrusive_ptr.destructor h) s =
        Returned (intrusive_ptr.mk NullType.singleton) s) /\
     (refcount_ t = 0 ->
      intrusive_ptr.unsafe_reclaim_from_nonowning p s =
        Aborted "unsafe_reclaim_from_nonowning"
          "intrusive_ptr can only reclaim pointers that are owned by someone" s)).
Proof.
  split.
  - unfold intrusive_ptr.unsafe_reclaim_from_nonowning. rewrite is_null_true.
    run. unfold intrusive_ptr.reclaim, intrusive_ptr.from_raw_dont_increase. run.
    erewrite bind_returned by apply retain_null. reflexivity.
  - intros p t Hne Hp [Hr Hw]. split.
    + intros Hpos.
      assert (Heq : intrusive_ptr.unsafe_reclaim_from_nonowning p s =
                    Returned (intrusive_ptr.mk p)
                      (with_target s p (Target (size_t (refcount_ t + 1)) (weakcount_ t)))).
      { rewrite (unsafe_reclaim_from_nonowning_eq p s t Hne Hp Hr).
        destruct (Z.gtb_spec (refcount_ t) 0); [reflexivity | lia]. }
      split; [exact Heq|].
      rewrite (bind_returned _ _ _ _ _ Heq). unfold intrusive_ptr.destructor.
      rewrite (strong_reset_eq p _ _ Hne (with_target_lookup _ _ _))
        by (split; [apply size_t_range | exact Hw]).
      unfold after_strong_reset. cbn [refcount_ weakcount_].
      rewrite (size_t_succ_is_one _ Hr).
      destruct (Z.eqb_spec (refcount_ t) 0); [lia|].
      rewrite with_target_twice, (size_t_succ_pred _ Hr), target_eta.
      rewrite (with_target_same _ _ _ Hp). reflexivity.
    + intros H0. rewrite (unsafe_reclaim_from_nonowning_eq p s t Hne Hp Hr), H0.
      reflexivity.
Qed.

Lemma unsafe_reclaim_checks_first_witness :
  intrusive_ptr.unsafe_reclaim_from_nonowning 1%N (one_target 2 1) =
    Returned (intrusive_ptr.mk 1%N) (with_target (one_target 2 1) 1%N (Target 3 1)) /\
  intrusive_ptr.unsafe_reclaim_from_nonowning 1%N (one_target 0 1) =
    Aborted "unsafe_reclaim_from_nonowning"
      "intrusive_ptr can only reclaim pointers that are owned by someone" (one_target 0 1).
Proof.
  split.
  - destruct (unsafe_reclaim_checks_first (one_target 2 1)) as [_ H].
    destruct (H 1%N (Target 2 1)) as [H' _]; [discriminate | reflexivity | in_range |].
    destruct H' as [H' _]; [reflexivity|]. exact H'.
  - destruct (unsafe_reclaim_checks_first (one_target 0 1)) as [_ H].
    destruct (H 1%N (Target 0 1)) as [_ H']; [discriminate | reflexivity | in_range |].
    apply H'. reflexivity.
Defined.

(** ** The raw helpers *)

(** X7: [raw::intrusive_ptr::incref] followed by [raw::intrusive_ptr::decref]
    on a target with a strong count of at least 1 returns in the state it
    started from.  [decref] on the null pointer does nothing.  On a target
    with strong count 0, [incref] then [decref] is a last strong drop: the
    hook runs (again) and the target is freed if its weak count is 1. *)
Theorem raw_incref_decref_round_trip (s : state) :
  raw_intrusive_ptr.decref nullptr s = Returned tt s /\
  (forall p t,
     p <> nullptr -> heap s !! p = Some t -> target_in_range t ->
     (1 <= refcount_ t ->
      (raw_intrusive_ptr.incref p ;; raw_intrusive_ptr.decref p) s = Returned tt s) /\
     (refcount_ t = 0 ->
      (raw_intrusive_ptr.incref p ;; raw_intrusive_ptr.decref p) s =
      Returned tt (after_strong_reset s p (Target 1 (weakcount_ t))))).
Proof.
  split; [reflexivity|].
  intros p t Hne Hp [Hr Hw].
  assert (Hinc : raw_intrusive_ptr.incref p s =
                 Returned tt (with_target s p (Target (size_t (refcount_ t + 1)) (weakcount_ t)))).
  { unfold raw_intrusive_ptr.incref.
    pose proof Hne as Hne'. apply N.eqb_neq in Hne'. rewrite Hne'. cbn [negb]. run.
    reflexivity. }
  rewrite (bind_returned _ _ _ _ _ Hinc).
  rewrite (raw_decref_eq p _ _ Hne (with_target_lookup _ _ _))
    by (split; [apply size_t_range | exact Hw]).
  unfold after_strong_reset. cbn [refcount_ weakcount_ heap trace with_target].
  rewrite (size_t_succ_is_one _ Hr).
  split.
  - intros Hpos. destruct (Z.eqb_spec (refcount_ t) 0); [lia|].
    rewrite with_target_twice, (size_t_succ_pred _ Hr), target_eta.
    rewrite (with_target_same _ _ _ Hp). reflexivity.
  - intros H0. rewrite H0. change (0 =? 0) with true. change (1 =? 1) with true.
    cbv iota. unfold with_target. cbn [heap trace].
    rewrite delete_insert_eq, insert_insert_eq. reflexivity.
Qed.

Lemma raw_incref_decref_round_trip_witness :
  (raw_intrusive_ptr.incref 1%N ;; raw_intrusive_ptr.decref 1%N) (one_target 1 1) =
  Returned tt (one_target 1 1).
Proof.
  destruct (raw_incref_decref_round_trip (one_target 1 1)) as [_ H].
  destruct (H 1%N (Target 1 1)) as [H' _]; [discriminate | reflexivity | in_range |].
  apply H'. discriminate.
Defined.

Lemma raw_weak_decref_eq p s t :
  p <> nullptr -> heap s !! p = Some t -> target_in_range t ->
  weak_unit_plausible t = true -> weakcount_ t <> 1 ->
  raw_weak_intrusive_ptr.decref p s =
  Returned tt (with_target s p (Target (refcount_ t) (size_t (weakcount_ t - 1)))).
Proof.
  intros Hne Hp Hrange Hpl Hw1.
  assert (Hne' : p <> @NullType.singleton intrusive_target_default_null_type) by exact Hne.
  unfold raw_weak_intrusive_ptr.decref.
  erewrite bind_returned.
  2:{ rewrite (weak_reclaim_eq p s t Hne' Hp), Hpl. reflexivity. }
  unfold weak_intrusive_ptr.destructor.
  erewrite bind_returned.
  2:{ rewrite (weak_reset_eq p s t Hne' Hp Hrange).
      destruct (Z.eqb_spec (weakcount_ t) 1); [contradiction | reflexivity]. }
  reflexivity.
Qed.

(** X8: [raw::weak_intrusive_ptr::incref] followed by
    [raw::weak_intrusive_ptr::decref] on a target whose weak count is at
    least 1 and below [SIZE_MAX] returns in the state it started from.  Unlike
    the strong [incref], the weak one has no null check: on an address that
    holds no target, the null pointer included, it dereferences it. *)
Theorem raw_weak_incref_decref_round_trip (s : state) :
  (forall p, heap s !! p = None -> raw_weak_intrusive_ptr.incref p s = Undefined) /\
  (forall p t,
     p <> nullptr -> heap s !! p = Some t -> target_in_range t ->
     1 <= weakcount_ t -> weakcount_ t < SIZE_MAX ->
     raw_weak_intrusive_ptr.incref p s =
       Returned tt (with_target s p (Target (refcount_ t) (weakcount_ t + 1))) /\
     (raw_weak_intrusive_ptr.incref p ;; raw_weak_intrusive_ptr.decref p) s =
       Returned tt s).
Proof.
  split.
  - intros p Hnone. unfold raw_weak_intrusive_ptr.incref, atomic_weakcount_increment,
      load_weakcount, deref, bind. rewrite Hnone. reflexivity.
  - intros p t Hne Hp [Hr Hw] Hpos Hmax.
    assert (Hinc : raw_weak_intrusive_ptr.incref p s =
                   Returned tt (with_target s p (Target (refcount_ t) (weakcount_ t + 1)))).
    { unfold raw_weak_intrusive_ptr.incref. run.
      rewrite (size_t_succ _ Hw Hmax). reflexivity. }
    split; [exact Hinc|].
    rewrite (bind_returned _ _ _ _ _ Hinc).
    rewrite (raw_weak_decref_eq p _ _ Hne (with_target_lookup _ _ _)).
    + cbn [refcount_ weakcount_]. rewrite with_target_twice.
      replace (weakcount_ t + 1 - 1) with (weakcount_ t) by lia.
      rewrite (size_t_id _ Hw), target_eta, (with_target_same _ _ _ Hp). reflexivity.
    + split; [exact Hr|]. cbn [weakcount_]. unfold in_size_t in *. lia.
    + apply weak_unit_plausible_spec. cbn [weakcount_]. lia.
    + cbn [weakcount_]. lia.
Qed.

Lemma raw_weak_incref_decref_round_trip_witness :
  (raw_weak_intrusive_ptr.incref 1%N ;; raw_weak_intrusive_ptr.decref 1%N) (one_target 1 1) =
    Returned tt (one_target 1 1) /\
  raw_weak_intrusive_ptr.incref nullptr (one_target 1 1) = Undefined.
Proof.
  destruct (raw_weak_incref_decref_round_trip (one_target 1 1)) as [Hnull H].
  split.
  - destruct (H 1%N (Target 1 1)) as [_ H'];
      [discriminate | reflexivity | in_range | discriminate | reflexivity |].
    exact H'.
  - apply Hnull. reflexivity.
Defined.

(** X9: the two raw [use_count] helpers read the strong count and change
    nothing, and give 0 for the null pointer; the one of the weak namespace
    goes through [weak_intrusive_ptr::reclaim] and therefore stops the program
    when the counters do not allow a weak unit (weak count at most 1 with a
    non-zero strong count, or weak count 0). *)
Theorem raw_use_count_reads (s : state) :
  raw_intrusive_ptr.use_count nullptr s = Returned 0 s /\
  raw_weak_intrusive_ptr.use_count nullptr s = Returned 0 s /\
  (forall p t,
     p <> nullptr -> heap s !! p = Some t ->
     raw_intrusive_ptr.use_count p s = Returned (refcount_ t) s /\
     (weak_unit_plausible t = true ->
      raw_weak_intrusive_ptr.use_count p s = Returned (refcount_ t) s) /\
     (weak_unit_plausible t = false ->
      raw_weak_intrusive_ptr.use_count p s =
        Aborted "reclaim"
          "weak_intrusive_ptr: Can only weak_intrusive_ptr::reclaim() owning pointers that were created using weak_intrusive_ptr::release()."
          s)).
Proof.
  split; [reflexivity|]. split; [reflexivity|].
  intros p t Hne Hp.
  assert (Hne' : p <> @NullType.singleton intrusive_target_default_null_type) by exact Hne.
  split; [|split].
  - unfold raw_intrusive_ptr.use_count, intrusive_ptr.reclaim,
      intrusive_ptr.from_raw_dont_increase. rewrite bind_ret.
    unfold intrusive_ptr.use_count. cbn [intrusive_ptr.target_].
    rewrite (is_null_false _ Hne'). run. reflexivity.
  - intros Hpl. unfold raw_weak_intrusive_ptr.use_count.
    erewrite bind_returned.
    2:{ rewrite (weak_reclaim_eq p s t Hne' Hp), Hpl. reflexivity. }
    unfold weak_intrusive_ptr.use_count. cbn [weak_intrusive_ptr.target_].
    rewrite (weak_is_null_false _ Hne'). run. reflexivity.
  - intros Hpl. unfold raw_weak_intrusive_ptr.use_count.
    apply bind_aborted. rewrite (weak_reclaim_eq p s t Hne' Hp), Hpl. reflexivity.
Qed.

Lemma raw_use_count_reads_witness :
  raw_intrusive_ptr.use_count 1%N (one_target 3 1) = Returned 3 (one_target 3 1) /\
  raw_weak_intrusive_ptr.use_count 1%N (one_target 3 2) = Returned 3 (one_target 3 2) /\
  raw_weak_intrusive_ptr.use_count 1%N (one_target 3 1) =
    Aborted "reclaim"
      "weak_intrusive_ptr: Can only weak_intrusive_ptr::reclaim() owning pointers that were created using weak_intrusive_ptr::release()."
      (one_target 3 1).
Proof.
  split; [|split].
  - destruct (raw_use_count_reads (one_target 3 1)) as (_ & _ & H).
    destruct (H 1%N (Target 3 1)) as [H' _]; [discriminate | reflexivity |]. exact H'.
  - destruct (raw_use_count_reads (one_target 3 2)) as (_ & _ & H).
    destruct (H 1%N (Target 3 2)) as (_ & H' & _); [discriminate | reflexivity |].
    apply H'. reflexivity.
  - destruct (raw_use_count_reads (one_target 3 1)) as (_ & _ & H).
    destruct (H 1%N (Target 3 1)) as (_ & _ & H'); [discriminate | reflexivity |].
    apply H'. reflexivity.
Defined.

(** X10: [raw::weak_intrusive_ptr::lock] on an address that carries a weak
    unit leaves the weak count alone; with a positive strong count it returns
    the address itself, now carrying one more strong unit, which
    [raw::intrusive_ptr::decref] gives back; with strong count 0 it returns
    the null pointer and changes nothing. *)
Theorem raw_weak_lock_promotes (p : addr) (s : state) (t : intrusive_ptr_target)
    (fuel : nat) (spurious : list bool) :
  p <> nullptr -> heap s !! p = Some t -> target_in_range t ->
  weak_unit_plausible t = true -> (length spurious < fuel)%nat ->
  (refcount_ t = 0 ->
   raw_weak_intrusive_ptr.lock fuel spurious p s = Returned (Some nullptr) s) /\
  (0 < refcount_ t ->
   raw_weak_intrusive_ptr.lock fuel spurious p s =
     Returned (Some p) (with_target s p (Target (size_t (refcount_ t + 1)) (weakcount_ t))) /\
   (a <- raw_weak_intrusive_ptr.lock fuel spurious p ;;
    match a with Some q => raw_intrusive_ptr.decref q | None => ret tt end) s =
     Returned tt s).
Proof.
  intros Hne Hp [Hr Hw] Hpl Hfuel.
  assert (Hne' : p <> @NullType.singleton intrusive_target_default_null_type) by exact Hne.
  assert (Hreclaim : weak_intrusive_ptr.reclaim p s = Returned (weak_intrusive_ptr.mk p) s).
  { rewrite (weak_reclaim_eq p s t Hne' Hp), Hpl. reflexivity. }
  split.
  - intros H0. unfold raw_weak_intrusive_ptr.lock.
    rewrite (bind_returned _ _ _ _ _ Hreclaim).
    erewrite bind_returned.
    2:{ unfold weak_intrusive_ptr.lock, weak_intrusive_ptr.expired,
          weak_intrusive_ptr.use_count. cbn [weak_intrusive_ptr.target_].
        rewrite (weak_is_null_false _ Hne'). run. rewrite H0. reflexivity. }
    reflexivity.
  - intros Hpos.
    assert (Hlock : raw_weak_intrusive_ptr.lock fuel spurious p s =
              Returned (Some p)
                (with_target s p (Target (size_t (refcount_ t + 1)) (weakcount_ t)))).
    { unfold raw_weak_intrusive_ptr.lock.
      rewrite (bind_returned _ _ _ _ _ Hreclaim).
      erewrite bind_returned.
      2:{ unfold weak_intrusive_ptr.lock, weak_intrusive_ptr.expired,
            weak_intrusive_ptr.use_count. cbn [weak_intrusive_ptr.target_].
          rewrite (weak_is_null_false _ Hne'). run.
          destruct (Z.eqb_spec (refcount_ t) 0); [lia|]. run.
          apply (lock_loop_eq fuel spurious p s t Hfuel Hp). lia. }
      cbv beta iota. unfold weak_intrusive_ptr.release, intrusive_ptr.release. run.
      reflexivity. }
    split; [exact Hlock|].
    rewrite (bind_returned _ _ _ _ _ Hlock).
    rewrite (raw_decref_eq p _ _ Hne (with_target_lookup _ _ _))
      by (split; [apply size_t_range | exact Hw]).
    unfold after_strong_reset. cbn [refcount_ weakcount_].
    rewrite (size_t_succ_is_one _ Hr).
    destruct (Z.eqb_spec (refcount_ t) 0); [lia|].
    rewrite with_target_twice, (size_t_succ_pred _ Hr), target_eta.
    rewrite (with_target_same _ _ _ Hp). reflexivity.
Qed.

Lemma raw_weak_lock_promotes_witness :
  raw_weak_intrusive_ptr.lock 2 [true] 1%N (one_target 1 2) =
    Returned (Some 1%N) (with_target (one_target 1 2) 1%N (Target 2 2)) /\
  raw_weak_intrusive_ptr.lock 2 [true] 1%N (one_target 0 1) =
    Returned (Some nullptr) (one_target 0 1).
Proof.
  split.
  - destruct (raw_weak_lock_promotes 1%N (one_target 1 2) (Target 1 2) 2 [true]) as [_ H];
      [discriminate | reflexivity | in_range | reflexivity | cbn; lia |].
    destruct H as [H _]; [reflexivity|]. exact H.
  - destruct (raw_weak_lock_promotes 1%N (one_target 0 1) (Target 0 1) 2 [true]) as [H _];
      [discriminate | reflexivity | in_range | reflexivity | cbn; lia |].
    apply H. reflexivity.
Defined.

(** ** The destructor of a target *)

(** X11: [delete] on a target frees it exactly when its strong count is 0 and
    its weak count is 0 or 1.  With a non-zero strong count, or else with a
    weak count above 1, the destructor's assertion stops the program with the
    matching message, and the target is still in memory with its counters. *)
Theorem target_destructor_asserts (p : addr) (s : state) (t : intrusive_ptr_target) :
  heap s !! p = Some t ->
  (refcount_ t = 0 -> weakcount_ t = 0 \/ weakcount_ t = 1 ->
   delete_ p s =
     Returned tt {| heap := delete p (heap s); trace := trace s ++ [Delete p] |}) /\
  (refcount_ t <> 0 ->
   delete_ p s =
     Aborted "~intrusive_ptr_target"
       "Attempted to declass an intrusive_ptr_target that still has an intrusive_ptr to it"
       s) /\
  (refcount_ t = 0 -> weakcount_ t <> 0 -> weakcount_ t <> 1 ->
   delete_ p s =
     Aborted "~intrusive_ptr_target"
       "Attempted to declass an intrusive_ptr_target that still has a weak_intrusive_ptr to it"
       s).
Proof.
  intros Hp. split; [|split].
  - intros Hr Hw. apply (delete_eq p s t Hp Hr Hw).
  - intros Hr. apply (delete_still_owned p s t Hp Hr).
  - intros Hr Hw0 Hw1. unfold delete_, destroy_target.
    run. rewrite Hr. cbn [Z.eqb]. run.
    apply Z.eqb_neq in Hw0, Hw1. rewrite Hw0, Hw1. reflexivity.
Qed.

Lemma target_destructor_asserts_witness :
  delete_ 1%N (one_target 0 2) =
    Aborted "~intrusive_ptr_target"
      "Attempted to declass an intrusive_ptr_target that still has a weak_intrusive_ptr to it"
      (one_target 0 2) /\
  delete_ 1%N (one_target 0 1) =
    Returned tt {| heap := delete 1%N (heap (one_target 0 1)); trace := [Delete 1%N] |}.
Proof.
  destruct (target_destructor_asserts 1%N (one_target 0 2) (Target 0 2)) as (_ & _ & H1);
    [reflexivity | ].
  destruct (target_destructor_asserts 1%N (one_target 0 1) (Target 0 1)) as (H2 & _);
    [reflexivity | ].
  split.
  - apply H1; [reflexivity | discriminate | discriminate].
  - apply H2; [reflexivity | right; reflexivity].
Defined.

(** ** Making and dropping *)

(** X12: a handle made by [make] and dropped at once leaves memory as it was:
    with a constructor that touches no counter, [make] followed by the
    destructor returns with the heap it started from, the address used having
    been free before, and exactly one hook call and one deallocation of that
    address added to the log. *)
Theorem make_then_drop_restores_heap `{NT : NullType.t} (s : state) :
  (h <- intrusive_ptr.make plain_ctor ;; intrusive_ptr.destructor h) s =
    Returned (intrusive_ptr.mk NullType.singleton)
      {| heap := heap s;
         trace := trace s ++ [ReleaseResources (alloc s); Delete (alloc s)] |} /\
  heap s !! alloc s = None.
Proof.
  destruct (alloc_fresh s) as [Hfresh Hne]. split; [|exact Hfresh].
  erewrite bind_returned.
  2:{ erewrite make_eq; [| reflexivity | apply with_target_lookup]. reflexivity. }
  unfold intrusive_ptr.destructor.
  rewrite (strong_reset_eq (alloc s) _ _ Hne (with_target_lookup _ _ _))
    by (split; cbv; split; discriminate).
  unfold after_strong_reset, with_target. cbn [refcount_ weakcount_ heap trace Z.eqb Pos.eqb].
  rewrite !delete_insert_eq, (delete_id _ _ Hfresh). reflexivity.
Qed.

(** ** The explicit constructor from a raw pointer *)

(** X13: the private constructor [intrusive_ptr(Target* target)] raises both counters
    by one and never asserts: on a freshly constructed target (both counters
    0), where [retain_] stops the program, it returns with both counters at 1,
    the state [make] establishes by its two stores; on the sentinel it changes
    nothing. *)
Theorem explicit_constructor_raises_both `{NT : NullType.t} (s : state) :
  intrusive_ptr.from_raw NullType.singleton s =
    Returned (intrusive_ptr.mk NullType.singleton) s /\
  (forall p t,
     p <> NullType.singleton -> heap s !! p = Some t ->
     intrusive_ptr.from_raw p s =
       Returned (intrusive_ptr.mk p)
         (with_target s p (Target (size_t (refcount_ t + 1)) (size_t (weakcount_ t + 1)))) /\
     (refcount_ t = 0 -> weakcount_ t = 0 ->
      intrusive_ptr.from_raw p s = Returned (intrusive_ptr.mk p) (with_target s p (Target 1 1)) /\
      intrusive_ptr.retain_ (intrusive_ptr.mk p) s =
        Aborted "retain_" "intrusive_ptr: Cannot increase refcount after it reached zero."
          (with_target s p (Target 1 0)))).
Proof.
  split.
  - unfold intrusive_ptr.from_raw, intrusive_ptr.from_raw_dont_increase.
    cbn [intrusive_ptr.target_]. rewrite is_null_true. reflexivity.
  - intros p t Hne Hp.
    assert (Heq : intrusive_ptr.from_raw p s =
              Returned (intrusive_ptr.mk p)
                (with_target s p (Target (size_t (refcount_ t + 1)) (size_t (weakcount_ t + 1))))).
    { unfold intrusive_ptr.from_raw, intrusive_ptr.from_raw_dont_increase.
      cbn [intrusive_ptr.target_]. rewrite (is_null_false _ Hne). cbn [negb].
      run. cbn [refcount_ weakcount_]. rewrite with_target_twice. reflexivity. }
    split; [exact Heq|].
    intros Hr0 Hw0. rewrite Heq, Hr0, Hw0. split; [reflexivity | ].
    rewrite (retain_eq p s t Hne Hp) by (rewrite Hr0; cbv; split; discriminate).
    rewrite Hr0, Hw0. reflexivity.
Qed.

Lemma explicit_constructor_raises_both_witness :
  intrusive_ptr.from_raw 1%N (one_target 0 0) =
    Returned (intrusive_ptr.mk 1%N) (with_target (one_target 0 0) 1%N (Target 1 1)).
Proof.
  destruct (explicit_constructor_raises_both (one_target 0 0)) as [_ H].
  destruct (H 1%N (Target 0 0)) as [_ H']; [discriminate | reflexivity |].
  apply H'; reflexivity.
Defined.

(** ** The bookkeeping rule is kept *)

Lemma heap_ok_lookup s p t : heap_ok s -> heap s !! p = Some t -> counters_ok t.
Proof. intros Hok Hp. exact (Hok p t Hp). Qed.

Lemma heap_ok_with_target s p t :
  heap_ok s -> counters_ok t -> heap_ok (with_target s p t).
Proof.
  intros Hok Ht. unfold heap_ok, with_target. cbn [heap].
  apply map_Forall_insert_2; assumption.
Qed.

Lemma heap_ok_insert h tr tr' p t :
  heap_ok {| heap := h; trace := tr |} -> counters_ok t ->
  heap_ok {| heap := <[p := t]> h; trace := tr' |}.
Proof.
  unfold heap_ok. cbn [heap]. intros Hok Ht. apply map_Forall_insert_2; assumption.
Qed.

Lemma heap_ok_delete h tr tr' p :
  heap_ok {| heap := h; trace := tr |} ->
  heap_ok {| heap := delete p h; trace := tr' |}.
Proof.
  unfold heap_ok. cbn [heap]. intros Hok. apply map_Forall_delete. exact Hok.
Qed.

Lemma counters_ok_intro r w :
  in_size_t r -> in_size_t w -> (0 < r -> 1 <= w) -> counters_ok (Target r w).
Proof. intros Hr Hw H. split; [split; assumption | exact H]. Qed.

(** X14: the handle operations keep the bookkeeping rule of the counters
    (every counter a [size_t]; weak count at least 1 while the strong count is
    positive) on the whole heap.  In a heap that satisfies it, a strong copy
    and a weak handle made from a strong one (counter below [SIZE_MAX]), the
    drop of a strong handle (strong count at least 1), the drop of a weak
    handle that holds a weak unit, a promotion by [lock()] and [make] all
    return in a heap that satisfies it again. *)
Theorem handles_keep_counters_ok `{NT : NullType.t} (p : addr) (s : state)
    (t : intrusive_ptr_target) :
  p <> NullType.singleton -> heap s !! p = Some t -> heap_ok s ->
  (1 <= refcount_ t -> refcount_ t < SIZE_MAX ->
   exists s', intrusive_ptr.copy (intrusive_ptr.mk p) s = Returned (intrusive_ptr.mk p) s' /\
              heap_ok s') /\
  (1 <= refcount_ t ->
   exists s', intrusive_ptr.reset_ (intrusive_ptr.mk p) s =
                Returned (intrusive_ptr.mk NullType.singleton) s' /\
              heap_ok s') /\
  (1 <= weakcount_ t -> weakcount_ t < SIZE_MAX ->
   exists s', weak_intrusive_ptr.from_strong (intrusive_ptr.mk p) s =
                Returned (weak_intrusive_ptr.mk p) s' /\
              weak_intrusive_ptr.copy (weak_intrusive_ptr.mk p) s =
                Returned (weak_intrusive_ptr.mk p) s' /\
              heap_ok s') /\
  (weak_unit_plausible t = true ->
   exists s', weak_intrusive_ptr.reset_ (weak_intrusive_ptr.mk p) s =
                Returned (weak_intrusive_ptr.mk NullType.singleton) s' /\
              heap_ok s') /\
  (refcount_ t < SIZE_MAX ->
   forall fuel spurious, (length spurious < fuel)%nat ->
   exists h s', weak_intrusive_ptr.lock fuel spurious (weak_intrusive_ptr.mk p) s =
                  Returned (Some h) s' /\
                heap_ok s') /\
  (exists h s', intrusive_ptr.make plain_ctor s = Returned h s' /\ heap_ok s').
Proof.
  intros Hne Hp Hok.
  destruct (heap_ok_lookup s p t Hok Hp) as [[Hr Hw] Hrule].
  pose proof Hr as Hr'. pose proof Hw as Hw'. unfold in_size_t in Hr', Hw'.
  split; [|split; [|split; [|split; [|split]]]].
  - intros Hpos Hmax. eexists. split.
    + rewrite (strong_copy_eq p s t Hne Hp Hr).
      destruct (Z.eqb_spec (refcount_ t) 0); [lia | reflexivity].
    + apply heap_ok_with_target; [exact Hok|].
      rewrite (size_t_succ _ Hr Hmax).
      apply counters_ok_intro; [unfold in_size_t; lia | exact Hw | lia].
  - intros Hpos. eexists. split.
    + apply (strong_reset_eq p s t Hne Hp). split; assumption.
    + unfold after_strong_reset. destruct s as [h tr]. cbn [heap trace] in *.
      destruct (Z.eqb_spec (refcount_ t) 1) as [Hr1 | Hr1].
      * destruct (Z.eqb_spec (weakcount_ t) 1).
        -- eapply heap_ok_delete. exact Hok.
        -- eapply heap_ok_insert; [exact Hok|].
           apply counters_ok_intro; [cbv; split; discriminate | apply size_t_range | lia].
      * apply heap_ok_with_target; [exact Hok|].
        rewrite (size_t_pred _ Hr) by lia.
        apply counters_ok_intro; [unfold in_size_t; lia | exact Hw | lia].
  - intros Hpos Hmax. eexists. split; [|split].
    + rewrite (weak_from_strong_eq p s t Hne Hp Hw).
      destruct (Z.eqb_spec (weakcount_ t) 0); [lia | reflexivity].
    + rewrite (weak_copy_eq p s t Hne Hp Hw).
      destruct (Z.eqb_spec (weakcount_ t) 0); [lia | reflexivity].
    + apply heap_ok_with_target; [exact Hok|].
      rewrite (size_t_succ _ Hw Hmax).
      apply counters_ok_intro; [exact Hr | unfold in_size_t; lia | lia].
  - intros Hpl. apply weak_unit_plausible_spec in Hpl.
    rewrite (weak_reset_eq p s t Hne Hp) by (split; assumption).
    destruct (Z.eqb_spec (weakcount_ t) 1) as [Hw1 | Hw1].
    + destruct (Z.eqb_spec (refcount_ t) 0) as [Hr0 | Hr0]; [|lia].
      eexists. split; [reflexivity|]. destruct s as [h tr]. cbn [heap trace] in *.
      eapply heap_ok_delete. exact Hok.
    + eexists. split; [reflexivity|].
      apply heap_ok_with_target; [exact Hok|].
      rewrite (size_t_pred _ Hw) by lia.
      apply counters_ok_intro; [exact Hr | unfold in_size_t; lia | lia].
  - intros Hmax fuel spurious Hfuel.
    destruct (Z.eqb_spec (refcount_ t) 0) as [Hr0 | Hr0].
    + exists (intrusive_ptr.mk NullType.singleton), s. split; [|exact Hok].
      unfold weak_intrusive_ptr.lock, weak_intrusive_ptr.expired,
        weak_intrusive_ptr.use_count. cbn [weak_intrusive_ptr.target_].
      rewrite (weak_is_null_false _ Hne). run. rewrite Hr0. reflexivity.
    + eexists _, _. split.
      * unfold weak_intrusive_ptr.lock, weak_intrusive_ptr.expired,
          weak_intrusive_ptr.use_count. cbn [weak_intrusive_ptr.target_].
        rewrite (weak_is_null_false _ Hne). run.
        destruct (Z.eqb_spec (refcount_ t) 0); [contradiction|]. run.
        apply (lock_loop_eq fuel spurious p s t Hfuel Hp Hr0).
      * apply heap_ok_with_target; [exact Hok|].
        rewrite (size_t_succ _ Hr Hmax).
        apply counters_ok_intro; [unfold in_size_t; lia | exact Hw | lia].
  - eexists _, _. split.
    + erewrite make_eq; [| reflexivity | apply with_target_lookup]. reflexivity.
    + rewrite with_target_twice. apply heap_ok_with_target; [exact Hok|].
      apply counters_ok_intro; [cbv; split; discriminate | cbv; split; discriminate | lia].
Qed.

Lemma one_target_ok : heap_ok (one_target 1 2).
Proof.
  unfold heap_ok, one_target. cbn [heap]. apply map_Forall_singleton.
  split; [in_range | intros _; discriminate].
Qed.

Lemma handles_keep_counters_ok_witness :
  exists s', weak_intrusive_ptr.reset_ (weak_intrusive_ptr.mk 1%N) (one_target 1 2) =
               Returned (weak_intrusive_ptr.mk nullptr) s' /\
             heap_ok s'.
Proof.
  destruct (handles_keep_counters_ok 1%N (one_target 1 2) (Target 1 2))
    as (_ & _ & _ & H & _); [discriminate | reflexivity | exact one_target_ok |].
  apply H. reflexivity.
Defined.

(** ** Handles as keys *)

(** X15: [operator==] on handles holds exactly for handles on the same
    address, [operator!=] is its negation, and [operator<] is a strict total
    order that agrees with it: irreflexive, asymmetric, transitive, and any
    two handles are equal or ordered one way.  This holds for strong and for
    weak handles. *)
Theorem handle_comparisons_order (a b c : intrusive_ptr.t)
    (x y z : weak_intrusive_ptr.t) :
  ((intrusive_ptr.eqb a b = true <-> a = b) /\
   intrusive_ptr.neqb a b = negb (intrusive_ptr.eqb a b) /\
   intrusive_ptr.ltb a a = false /\
   (intrusive_ptr.ltb a b = true -> intrusive_ptr.ltb b a = false) /\
   (intrusive_ptr.ltb a b = true -> intrusive_ptr.ltb b c = true ->
    intrusive_ptr.ltb a c = true) /\
   (intrusive_ptr.ltb a b = true \/ a = b \/ intrusive_ptr.ltb b a = true)) /\
  ((weak_intrusive_ptr.eqb x y = true <-> x = y) /\
   weak_intrusive_ptr.neqb x y = negb (weak_intrusive_ptr.eqb x y) /\
   weak_intrusive_ptr.ltb x x = false /\
   (weak_intrusive_ptr.ltb x y = true -> weak_intrusive_ptr.ltb y x = false) /\
   (weak_intrusive_ptr.ltb x y = true -> weak_intrusive_ptr.ltb y z = true ->
    weak_intrusive_ptr.ltb x z = true) /\
   (weak_intrusive_ptr.ltb x y = true \/ x = y \/ weak_intrusive_ptr.ltb y x = true)).
Proof.
  destruct a as [a], b as [b], c as [c], x as [x], y as [y], z as [z].
  unfold intrusive_ptr.eqb, intrusive_ptr.neqb, intrusive_ptr.ltb, intrusive_ptr.get,
    weak_intrusive_ptr.eqb, weak_intrusive_ptr.neqb, weak_intrusive_ptr.ltb.
  cbn [intrusive_ptr.target_ weak_intrusive_ptr.target_].
  rewrite !N.eqb_eq, !N.ltb_lt, !N.ltb_ge.
  split; (split; [split; [intros ->; reflexivity | intros [= ->]; reflexivity]|]);
    (split; [reflexivity|]); (split; [lia|]); (split; [lia|]); (split; [lia|]).
  - destruct (N.lt_trichotomy a b) as [H | [-> | H]]; auto.
  - destruct (N.lt_trichotomy x y) as [H | [-> | H]]; auto.
Qed.

(** ** The failure message *)

Lemma append_nonempty_l (x y : string) : x <> EmptyString -> x +:+ y <> EmptyString.
Proof. destruct x; [contradiction | discriminate]. Qed.

(** X16: the message [CORETEN_ENFORCE] reports is never empty: it is the text
    of the arguments joined when that is not empty, and otherwise the default
    sentence built from the condition as written.  A check whose condition
    holds returns in the same state; one whose condition fails stops the
    program with that message and the state untouched. *)
Theorem enforce_message_never_empty (func cond_text : string) (args : list string)
    (s : state) :
  CORETEN_ENFORCE_MSG cond_text args <> EmptyString /\
  (String.concat EmptyString args <> EmptyString ->
   CORETEN_ENFORCE_MSG cond_text args = String.concat EmptyString args) /\
  (String.concat EmptyString args = EmptyString ->
   CORETEN_ENFORCE_MSG cond_text args =
     "Expected " +:+ cond_text +:+ " to be true, but got false.  ") /\
  CORETEN_ENFORCE func true cond_text args s = Returned tt s /\
  CORETEN_ENFORCE func false cond_text args s =
    Aborted func (CORETEN_ENFORCE_MSG cond_text args) s.
Proof.
  assert (Hlast : CORETEN_ENFORCE func true cond_text args s = Returned tt s /\
                  CORETEN_ENFORCE func false cond_text args s =
                    Aborted func (CORETEN_ENFORCE_MSG cond_text args) s)
    by (split; reflexivity).
  unfold CORETEN_ENFORCE_MSG, if_empty in *.
  destruct (String.concat EmptyString args) eqn:Hc.
  - split; [discriminate|]. split; [intros H; contradiction|].
    split; [reflexivity | exact Hlast].
  - split; [discriminate|]. split; [reflexivity|].
    split; [discriminate | exact Hlast].
Qed.

Lemma enforce_message_never_empty_witness :
  CORETEN_ENFORCE_MSG "x == 0" [] = "Expected x == 0 to be true, but got false.  " /\
  CORETEN_ENFORCE_MSG "x == 0" ["Expected x to be 0, but got "; "3"] =
    "Expected x to be 0, but got 3".
Proof.
  destruct (enforce_message_never_empty "f" "x == 0" [] (one_target 1 1))
    as (_ & _ & H1 & _).
  destruct (enforce_message_never_empty "f" "x == 0" ["Expected x to be 0, but got "; "3"]
              (one_target 1 1)) as (_ & H2 & _).
  split.
  - apply H1. reflexivity.
  - apply H2. discriminate.
Defined.

(** ** Printing the enumerations *)

Lemma append_inj_r (x y z : string) : x +:+ y = x +:+ z -> y = z.
Proof.
  induction x as [|a x IH]; cbn; intros H; [exact H|].
  injection H as H. apply IH. exact H.
Qed.

(** X17: [operator<<] for [MemoryFormat] appends the name of the format to
    what the stream holds, a different name for each of the three formats, so
    that the format can be read back from the output; for any other value of
    the underlying type it stops the program with "Unknown memory format". *)
Theorem memory_format_print_names (stream : string) (s : state) :
  MemoryFormat.print stream MemoryFormat.Preserve s = Returned (stream +:+ "Preserve") s /\
  MemoryFormat.print stream MemoryFormat.ChannelsLast s =
    Returned (stream +:+ "ChannelsLast") s /\
  MemoryFormat.print stream MemoryFormat.Contiguous s =
    Returned (stream +:+ "Contiguous") s /\
  (forall f, f <> MemoryFormat.Preserve -> f <> MemoryFormat.ChannelsLast ->
             f <> MemoryFormat.Contiguous ->
             MemoryFormat.print stream f s = Aborted "operator<<" "Unknown memory format" s) /\
  (forall f g out s1 s2,
     MemoryFormat.print stream f s = Returned out s1 ->
     MemoryFormat.print stream g s = Returned out s2 -> f = g).
Proof.
  split; [reflexivity|]. split; [reflexivity|]. split; [reflexivity|]. split.
  - intros f H0 H1 H2. unfold MemoryFormat.print.
    apply Z.eqb_neq in H0, H1, H2. rewrite H0, H1, H2. reflexivity.
  - intros f g out s1 s2. unfold MemoryFormat.print.
    destruct (Z.eqb_spec f MemoryFormat.Preserve) as [-> | _];
      [| destruct (Z.eqb_spec f MemoryFormat.Contiguous) as [-> | _];
         [| destruct (Z.eqb_spec f MemoryFormat.ChannelsLast) as [-> | _]]];
    (destruct (Z.eqb_spec g MemoryFormat.Preserve) as [-> | _];
      [| destruct (Z.eqb_spec g MemoryFormat.Contiguous) as [-> | _];
         [| destruct (Z.eqb_spec g MemoryFormat.ChannelsLast) as [-> | _]]]);
    unfold ret; intros Hf Hg; try discriminate; try reflexivity;
    injection Hf as <- _; injection Hg as Hg _; apply append_inj_r in Hg; discriminate.
Qed.

Lemma memory_format_print_names_witness :
  MemoryFormat.print "format: " 5 (one_target 1 1) =
  Aborted "operator<<" "Unknown memory format" (one_target 1 1).
Proof.
  destruct (memory_format_print_names "format: " (one_target 1 1)) as (_ & _ & _ & H & _).
  apply H; discriminate.
Defined.

(** X18: [operator<<] for [Device] appends "Device: CPU" or "Device: CUDA",
    different texts for the two devices; for any other value of the
    underlying type it stops the program with "Unknown Device format". *)
Theorem device_print_names (stream : string) (s : state) :
  Device.print stream Device.CPU s = Returned (stream +:+ "Device: CPU") s /\
  Device.print stream Device.CUDA s = Returned (stream +:+ "Device: CUDA") s /\
  (forall d, d <> Device.CPU -> d <> Device.CUDA ->
             Device.print stream d s = Aborted "operator<<" "Unknown Device format" s) /\
  (forall d e out s1 s2,
     Device.print stream d s = Returned out s1 ->
     Device.print stream e s = Returned out s2 -> d = e).
Proof.
  split; [reflexivity|]. split; [reflexivity|]. split.
  - intros d H0 H1. unfold Device.print.
    apply Z.eqb_neq in H0, H1. rewrite H0, H1. reflexivity.
  - intros d e out s1 s2. unfold Device.print.
    destruct (Z.eqb_spec d Device.CPU) as [-> | _];
      [| destruct (Z.eqb_spec d Device.CUDA) as [-> | _]];
    (destruct (Z.eqb_spec e Device.CPU) as [-> | _];
      [| destruct (Z.eqb_spec e Device.CUDA) as [-> | _]]);
    unfold ret; intros Hd He; try discriminate; try reflexivity;
    injection Hd as <- _; injection He as He _; apply append_inj_r in He; discriminate.
Qed.

Lemma device_print_names_witness :
  Device.print EmptyString 2 (one_target 1 1) =
  Aborted "operator<<" "Unknown Device format" (one_target 1 1).
Proof.
  destruct (device_print_names EmptyString (one_target 1 1)) as (_ & _ & H & _).
  apply H; discriminate.
Defined.

(** ** Assignment *)

(** X19: move assignment between two distinct strong handles transfers the
    unit without counting: the destination takes the source's address, the
    source is left at the sentinel, the counters of the moved target are not
    written, and the target the destination held before gets exactly one
    strong drop (none if the destination was empty).  Moving a handle into
    itself leaves the handle and the state as they were. *)
Theorem move_assign_transfers `{NT : NullType.t} (this rhs : intrusive_ptr.t)
    (s : state) :
  (intrusive_ptr.target_ this = NullType.singleton ->
   intrusive_ptr.move_assign this rhs s =
     Returned (intrusive_ptr.mk (intrusive_ptr.target_ rhs),
               intrusive_ptr.mk NullType.singleton) s) /\
  (forall t,
     intrusive_ptr.target_ this <> NullType.singleton ->
     heap s !! intrusive_ptr.target_ this = Some t -> target_in_range t ->
     intrusive_ptr.move_assign this rhs s =
       Returned (intrusive_ptr.mk (intrusive_ptr.target_ rhs),
                 intrusive_ptr.mk NullType.singleton)
         (after_strong_reset s (intrusive_ptr.target_ this) t) /\
     (2 <= refcount_ t ->
      after_strong_reset s (intrusive_ptr.target_ this) t =
      with_target s (intrusive_ptr.target_ this)
        (Target (refcount_ t - 1) (weakcount_ t)))) /\
  intrusive_ptr.move_assign_self this s = Returned this s.
Proof.
  destruct this as [p], rhs as [q]. cbn [intrusive_ptr.target_].
  unfold intrusive_ptr.move_assign, intrusive_ptr.move_assign_self,
    intrusive_ptr.move, intrusive_ptr.swap, intrusive_ptr.destructor.
  cbn [fst snd intrusive_ptr.target_].
  split; [|split].
  - intros ->. erewrite bind_returned by apply strong_reset_null. reflexivity.
  - intros t Hne Hp Hrange. split.
    + erewrite bind_returned by apply (strong_reset_eq p s t Hne Hp Hrange). reflexivity.
    + intros H2. unfold after_strong_reset.
      destruct (Z.eqb_spec (refcount_ t) 1); [lia|].
      destruct Hrange as [Hr _]. rewrite (size_t_pred _ Hr) by lia. reflexivity.
  - erewrite bind_returned by apply strong_reset_null. reflexivity.
Qed.

Lemma move_assign_transfers_witness :
  intrusive_ptr.move_assign (intrusive_ptr.mk 1%N) (intrusive_ptr.mk 2%N)
    (two_targets 2 1 1 1) =
  Returned (intrusive_ptr.mk 2%N, intrusive_ptr.mk nullptr)
    (with_target (two_targets 2 1 1 1) 1%N (Target 1 1)).
Proof.
  destruct (move_assign_transfers (intrusive_ptr.mk 1%N) (intrusive_ptr.mk 2%N)
              (two_targets 2 1 1 1)) as (_ & H & _).
  destruct (H (Target 2 1)) as [H1 H2]; [discriminate | reflexivity | in_range |].
  rewrite H1, H2; [reflexivity | discriminate].
Defined.

(** X20: copy assignment of strong handles retains the new target before it
    drops the old one.  Assigning a handle to itself, or a handle on the same
    target, leaves the state as it was (strong count at least 1); assigning
    to an empty handle only adds one strong unit to the source's target;
    assigning over a handle on another target adds that unit and gives the old
    target exactly one strong drop; assigning an empty handle is a strong
    drop; and when the source's target has strong count 0 the assignment stops
    the program with the old target not yet dropped. *)
Theorem copy_assign_retains_then_drops `{NT : NullType.t} (p : addr) (s : state)
    (t : intrusive_ptr_target) :
  p <> NullType.singleton -> heap s !! p = Some t -> target_in_range t ->
  let s1 := with_target s p (Target (size_t (refcount_ t + 1)) (weakcount_ t)) in
  (1 <= refcount_ t ->
   intrusive_ptr.copy_assign (intrusive_ptr.mk p) (intrusive_ptr.mk p) s =
     Returned (intrusive_ptr.mk p) s) /\
  (1 <= refcount_ t ->
   intrusive_ptr.copy_assign (intrusive_ptr.mk NullType.singleton) (intrusive_ptr.mk p) s =
     Returned (intrusive_ptr.mk p) s1) /\
  (1 <= refcount_ t ->
   forall q tq,
     q <> NullType.singleton -> q <> p -> heap s !! q = Some tq -> target_in_range tq ->
     intrusive_ptr.copy_assign (intrusive_ptr.mk q) (intrusive_ptr.mk p) s =
       Returned (intrusive_ptr.mk p) (after_strong_reset s1 q tq)) /\
  intrusive_ptr.copy_assign (intrusive_ptr.mk p) (intrusive_ptr.mk NullType.singleton) s =
    Returned (intrusive_ptr.mk NullType.singleton) (after_strong_reset s p t) /\
  (refcount_ t = 0 ->
   forall this,
     intrusive_ptr.copy_assign this (intrusive_ptr.mk p) s =
       Aborted "retain_" "intrusive_ptr: Cannot increase refcount after it reached zero."
         (with_target s p (Target 1 (weakcount_ t)))).
Proof.
  intros Hne Hp Hrange s1. pose proof Hrange as [Hr Hw].
  assert (Hcopy : 1 <= refcount_ t ->
            intrusive_ptr.copy (intrusive_ptr.mk p) s = Returned (intrusive_ptr.mk p) s1).
  { intros Hpos. rewrite (strong_copy_eq p s t Hne Hp Hr).
    destruct (Z.eqb_spec (refcount_ t) 0); [lia | reflexivity]. }
  unfold intrusive_ptr.copy_assign, intrusive_ptr.swap, intrusive_ptr.destructor.
  split; [|split; [|split; [|split]]].
  - intros Hpos. rewrite (bind_returned _ _ _ _ _ (Hcopy Hpos)).
    cbn [fst snd intrusive_ptr.target_].
    erewrite bind_returned.
    2:{ apply (strong_reset_eq p s1 _ Hne (with_target_lookup _ _ _)).
        split; [apply size_t_range | exact Hw]. }
    unfold after_strong_reset, s1. cbn [refcount_ weakcount_].
    rewrite (size_t_succ_is_one _ Hr).
    destruct (Z.eqb_spec (refcount_ t) 0); [lia|].
    rewrite with_target_twice, (size_t_succ_pred _ Hr), target_eta.
    rewrite (with_target_same _ _ _ Hp). reflexivity.
  - intros Hpos. rewrite (bind_returned _ _ _ _ _ (Hcopy Hpos)).
    cbn [fst snd intrusive_ptr.target_].
    erewrite bind_returned by apply strong_reset_null. reflexivity.
  - intros Hpos q tq Hq Hqp Hlq Hrq. rewrite (bind_returned _ _ _ _ _ (Hcopy Hpos)).
    cbn [fst snd intrusive_ptr.target_].
    assert (Hlq1 : heap s1 !! q = Some tq).
    { unfold s1. rewrite with_target_lookup_ne by congruence. exact Hlq. }
    erewrite bind_returned by apply (strong_reset_eq q s1 tq Hq Hlq1 Hrq).
    reflexivity.
  - erewrite bind_returned.
    2:{ unfold intrusive_ptr.copy. cbn [intrusive_ptr.target_].
        erewrite bind_returned by apply retain_null. reflexivity. }
    cbn [fst snd intrusive_ptr.target_].
    erewrite bind_returned by apply (strong_reset_eq p s t Hne Hp Hrange).
    reflexivity.
  - intros H0 this. apply bind_aborted.
    rewrite (strong_copy_eq p s t Hne Hp Hr), H0. reflexivity.
Qed.

Lemma copy_assign_retains_then_drops_witness :
  intrusive_ptr.copy_assign (intrusive_ptr.mk 1%N) (intrusive_ptr.mk 1%N) (one_target 1 1) =
    Returned (intrusive_ptr.mk 1%N) (one_target 1 1) /\
  intrusive_ptr.copy_assign (intrusive_ptr.mk 2%N) (intrusive_ptr.mk 1%N)
    (two_targets 1 1 1 1) =
    Returned (intrusive_ptr.mk 1%N)
      {| heap := {[ 1%N := Target 2 1 ]}; trace := [ReleaseResources 2%N; Delete 2%N] |}.
Proof.
  split.
  - destruct (@copy_assign_retains_then_drops intrusive_target_default_null_type
                1%N (one_target 1 1) (Target 1 1)) as (H & _);
      [discriminate | reflexivity | in_range |].
    apply H. discriminate.
  - destruct (@copy_assign_retains_then_drops intrusive_target_default_null_type
                1%N (two_targets 1 1 1 1) (Target 1 1)) as (_ & _ & H & _);
      [discriminate | reflexivity | in_range |].
    rewrite (H ltac:(discriminate) 2%N (Target 1 1));
      [ vm_compute; reflexivity | discriminate | discriminate | reflexivity | in_range ].
Defined.

(** X21: assignment to a weak handle.  Assigning a strong handle, or a weak
    handle, on the target the weak handle already observes leaves the state as
    it was (weak count at least 2, so that the observer's own unit exists);
    assigning to an empty weak handle adds exactly one weak unit and leaves
    the strong count alone; move assignment between two distinct weak handles
    writes no counter of the moved target and gives the target observed
    before one weak drop. *)
Theorem weak_assignment `{NT : NullType.t} (p : addr) (s : state)
    (t : intrusive_ptr_target) :
  p <> NullType.singleton -> heap s !! p = Some t -> target_in_range t ->
  (2 <= weakcount_ t ->
   weak_intrusive_ptr.assign_from_strong (weak_intrusive_ptr.mk p) (intrusive_ptr.mk p) s =
     Returned (weak_intrusive_ptr.mk p) s /\
   weak_intrusive_ptr.copy_assign (weak_intrusive_ptr.mk p) (weak_intrusive_ptr.mk p) s =
     Returned (weak_intrusive_ptr.mk p) s) /\
  (1 <= weakcount_ t ->
   let s1 := with_target s p (Target (refcount_ t) (size_t (weakcount_ t + 1))) in
   weak_intrusive_ptr.assign_from_strong (weak_intrusive_ptr.mk NullType.singleton)
     (intrusive_ptr.mk p) s = Returned (weak_intrusive_ptr.mk p) s1 /\
   weak_intrusive_ptr.copy_assign (weak_intrusive_ptr.mk NullType.singleton)
     (weak_intrusive_ptr.mk p) s = Returned (weak_intrusive_ptr.mk p) s1) /\
  (2 <= weakcount_ t ->
   forall rhs,
     weak_intrusive_ptr.move_assign (weak_intrusive_ptr.mk p) rhs s =
       Returned (weak_intrusive_ptr.mk (weak_intrusive_ptr.target_ rhs),
                 weak_intrusive_ptr.mk NullType.singleton)
         (with_target s p (Target (refcount_ t) (weakcount_ t - 1)))).
Proof.
  intros Hne Hp [Hr Hw].
  assert (Hfrom : 1 <= weakcount_ t ->
            weak_intrusive_ptr.from_strong (intrusive_ptr.mk p) s =
              Returned (weak_intrusive_ptr.mk p)
                (with_target s p (Target (refcount_ t) (size_t (weakcount_ t + 1))))).
  { intros Hpos. rewrite (weak_from_strong_eq p s t Hne Hp Hw).
    destruct (Z.eqb_spec (weakcount_ t) 0); [lia | reflexivity]. }
  assert (Hcopy : 1 <= weakcount_ t ->
            weak_intrusive_ptr.copy (weak_intrusive_ptr.mk p) s =
              Returned (weak_intrusive_ptr.mk p)
                (with_target s p (Target (refcount_ t) (size_t (weakcount_ t + 1))))).
  { intros Hpos. rewrite (weak_copy_eq p s t Hne Hp Hw).
    destruct (Z.eqb_spec (weakcount_ t) 0); [lia | reflexivity]. }
  assert (Hback : 1 <= weakcount_ t ->
            weak_intrusive_ptr.reset_ (weak_intrusive_ptr.mk p)
              (with_target s p (Target (refcount_ t) (size_t (weakcount_ t + 1)))) =
            Returned (weak_intrusive_ptr.mk NullType.singleton) s).
  { intros Hpos.
    rewrite (weak_reset_eq p _ _ Hne (with_target_lookup _ _ _))
      by (split; [exact Hr | apply size_t_range]).
    cbn [refcount_ weakcount_]. rewrite (size_t_succ_is_one _ Hw).
    destruct (Z.eqb_spec (weakcount_ t) 0); [lia|].
    rewrite with_target_twice, (size_t_succ_pred _ Hw), target_eta.
    rewrite (with_target_same _ _ _ Hp). reflexivity. }
  unfold weak_intrusive_ptr.assign_from_strong, weak_intrusive_ptr.copy_assign,
    weak_intrusive_ptr.move_assign, weak_intrusive_ptr.move, weak_intrusive_ptr.swap,
    weak_intrusive_ptr.destructor.
  split; [|split].
  - intros H2. split.
    + rewrite (bind_returned _ _ _ _ _ (Hfrom ltac:(lia))).
      cbn [fst snd weak_intrusive_ptr.target_].
      rewrite (bind_returned _ _ _ _ _ (Hback ltac:(lia))). reflexivity.
    + rewrite (bind_returned _ _ _ _ _ (Hcopy ltac:(lia))).
      cbn [fst snd weak_intrusive_ptr.target_].
      rewrite (bind_returned _ _ _ _ _ (Hback ltac:(lia))). reflexivity.
  - intros Hpos. split.
    + rewrite (bind_returned _ _ _ _ _ (Hfrom Hpos)).
      cbn [fst snd weak_intrusive_ptr.target_].
      erewrite bind_returned by apply weak_reset_null. reflexivity.
    + rewrite (bind_returned _ _ _ _ _ (Hcopy Hpos)).
      cbn [fst snd weak_intrusive_ptr.target_].
      erewrite bind_returned by apply weak_reset_null. reflexivity.
  - intros H2 [q]. cbn [fst snd weak_intrusive_ptr.target_].
    erewrite bind_returned.
    2:{ rewrite (weak_reset_eq p s t Hne Hp) by (split; assumption).
        destruct (Z.eqb_spec (weakcount_ t) 1); [lia | reflexivity]. }
    rewrite (size_t_pred _ Hw) by lia. reflexivity.
Qed.

Lemma weak_assignment_witness :
  weak_intrusive_ptr.assign_from_strong (weak_intrusive_ptr.mk 1%N) (intrusive_ptr.mk 1%N)
    (one_target 1 2) = Returned (weak_intrusive_ptr.mk 1%N) (one_target 1 2).
Proof.
  destruct (@weak_assignment intrusive_target_default_null_type
              1%N (one_target 1 2) (Target 1 2)) as (H & _);
    [discriminate | reflexivity | in_range |].
  apply H. discriminate.
Defined.

(** ** Converting between null policies *)

(** X22: converting a handle from null policy [From] to null policy [To]
    keeps the address, except that the sentinel of [From] becomes the sentinel
    of [To]; between equal policies nothing changes.  An empty handle
    converts to an empty handle and the converting copy touches no counter.  A
    non-empty handle converts to a non-empty handle on the same address unless
    that address is the sentinel of [To]: then the result is empty and the
    converting copy returns without having counted anything. *)
Theorem converting_handles (To From : NullType.t) (rhs : intrusive_ptr.t) (s : state) :
  assign_ptr To To (intrusive_ptr.target_ rhs) = intrusive_ptr.target_ rhs /\
  (intrusive_ptr.target_ rhs = @NullType.singleton From ->
   intrusive_ptr.convert_move To From rhs =
     (intrusive_ptr.mk (@NullType.singleton To), intrusive_ptr.mk (@NullType.singleton From)) /\
   intrusive_ptr.convert_copy To From rhs s =
     Returned (intrusive_ptr.mk (@NullType.singleton To)) s) /\
  (intrusive_ptr.target_ rhs <> @NullType.singleton From ->
   intrusive_ptr.convert_move To From rhs = (rhs, intrusive_ptr.mk (@NullType.singleton From)) /\
   (intrusive_ptr.target_ rhs <> @NullType.singleton To ->
    @intrusive_ptr.defined To (fst (intrusive_ptr.convert_move To From rhs)) = true /\
    intrusive_ptr.convert_copy To From rhs s = @intrusive_ptr.copy To rhs s) /\
   (intrusive_ptr.target_ rhs = @NullType.singleton To ->
    @intrusive_ptr.defined From rhs = true /\
    @intrusive_ptr.defined To (fst (intrusive_ptr.convert_move To From rhs)) = false /\
    intrusive_ptr.convert_copy To From rhs s = Returned rhs s)).
Proof.
  destruct rhs as [p]. cbn [intrusive_ptr.target_].
  unfold intrusive_ptr.convert_move, intrusive_ptr.convert_copy, assign_ptr,
    intrusive_ptr.defined, intrusive_ptr.is_null.
  cbn [intrusive_ptr.target_ fst].
  split; [|split].
  - destruct (N.eqb_spec (@NullType.singleton To) p); congruence.
  - intros ->. rewrite N.eqb_refl. split; [reflexivity|].
    unfold bind. rewrite (@retain_null To). reflexivity.
  - intros Hne.
    destruct (N.eqb_spec (@NullType.singleton From) p) as [Heq | _]; [congruence|].
    split; [reflexivity|]. split.
    + intros HneTo. split; [apply negb_true_iff, N.eqb_neq; exact HneTo | reflexivity].
    + intros ->. split; [apply negb_true_iff, N.eqb_neq; exact Hne|].
      rewrite N.eqb_refl. split; [reflexivity|].
      unfold bind. rewrite (@retain_null To). reflexivity.
Qed.

Lemma converting_handles_witness :
  @intrusive_ptr.defined intrusive_target_default_null_type (intrusive_ptr.mk 7%N) = true /\
  @intrusive_ptr.defined seven_null_type
    (fst (intrusive_ptr.convert_move seven_null_type intrusive_target_default_null_type
            (intrusive_ptr.mk 7%N))) = false /\
  intrusive_ptr.convert_copy seven_null_type intrusive_target_default_null_type
    (intrusive_ptr.mk 7%N) (one_target 1 1) = Returned (intrusive_ptr.mk 7%N) (one_target 1 1).
Proof.
  destruct (converting_handles seven_null_type intrusive_target_default_null_type
              (intrusive_ptr.mk 7%N) (one_target 1 1)) as (_ & _ & H).
  destruct H as (_ & _ & H); [discriminate|].
  apply H. reflexivity.
Defined.

(** ** Promotion and release, followed by a drop *)

(** X23: a promotion is given back by dropping its result: for a weak handle
    on a target in memory, [lock()] followed by the destructor of the strong
    handle it returned ends in the state it started from, whether the target
    was expired (the result is empty and its destructor does nothing) or not;
    and [expired()] tells which, reading the strong count without changing
    anything. *)
Theorem lock_then_drop_restores `{NT : NullType.t} (p : addr) (s : state)
    (t : intrusive_ptr_target) (fuel : nat) (spurious : list bool) :
  p <> NullType.singleton -> heap s !! p = Some t -> target_in_range t ->
  (length spurious < fuel)%nat ->
  (o <- weak_intrusive_ptr.lock fuel spurious (weak_intrusive_ptr.mk p) ;;
   match o with
   | Some h => intrusive_ptr.destructor h
   | None => ret (intrusive_ptr.mk NullType.singleton)
   end) s = Returned (intrusive_ptr.mk NullType.singleton) s /\
  weak_intrusive_ptr.expired (weak_intrusive_ptr.mk p) s = Returned (refcount_ t =? 0) s.
Proof.
  intros Hne Hp [Hr Hw] Hfuel.
  assert (Hexp : weak_intrusive_ptr.expired (weak_intrusive_ptr.mk p) s =
                 Returned (refcount_ t =? 0) s).
  { unfold weak_intrusive_ptr.expired, weak_intrusive_ptr.use_count.
    cbn [weak_intrusive_ptr.target_]. rewrite (weak_is_null_false _ Hne). run.
    reflexivity. }
  split; [|exact Hexp].
  unfold weak_intrusive_ptr.lock. rewrite bind_assoc.
  rewrite (bind_returned _ _ _ _ _ Hexp).
  destruct (Z.eqb_spec (refcount_ t) 0) as [H0 | H0].
  - rewrite bind_ret. unfold intrusive_ptr.destructor, intrusive_ptr.default,
      intrusive_ptr.from_raw_dont_increase. apply strong_reset_null.
  - run. rewrite (bind_returned _ _ _ _ _ (lock_loop_eq fuel spurious p s t Hfuel Hp H0)).
    unfold intrusive_ptr.destructor.
    rewrite (strong_reset_eq p _ _ Hne (with_target_lookup _ _ _))
      by (split; [apply size_t_range | exact Hw]).
    unfold after_strong_reset. cbn [refcount_ weakcount_].
    rewrite (size_t_succ_is_one _ Hr).
    destruct (Z.eqb_spec (refcount_ t) 0); [contradiction|].
    rewrite with_target_twice, (size_t_succ_pred _ Hr), target_eta.
    rewrite (with_target_same _ _ _ Hp). reflexivity.
Qed.

Lemma lock_then_drop_restores_witness :
  (o <- weak_intrusive_ptr.lock 2 [true] (weak_intrusive_ptr.mk 1%N) ;;
   match o with
   | Some h => intrusive_ptr.destructor h
   | None => ret (intrusive_ptr.mk nullptr)
   end) (one_target 1 2) = Returned (intrusive_ptr.mk nullptr) (one_target 1 2).
Proof.
  destruct (@lock_then_drop_restores intrusive_target_default_null_type
              1%N (one_target 1 2) (Target 1 2) 2 [true]) as [H _];
    [discriminate | reflexivity | in_range | cbn; lia |].
  exact H.
Defined.

(** X24: [release()] takes the unit out of the handle: the destructor of a
    released handle, strong or weak, changes nothing, so a released address
    that is never reclaimed keeps its unit for good; and dropping the handle
    that [reclaim] builds from a released strong address is exactly the drop
    the original handle would have made. *)
Theorem release_hands_the_unit_out `{NT : NullType.t} (s : state) :
  (forall h : intrusive_ptr.t,
     (r <- intrusive_ptr.release h ;; intrusive_ptr.destructor (snd r)) s =
       Returned (intrusive_ptr.mk NullType.singleton) s /\
     (r <- intrusive_ptr.release h ;;
      h' <- intrusive_ptr.reclaim (fst r) ;;
      intrusive_ptr.destructor (snd r) ;;
      intrusive_ptr.destructor h') s = intrusive_ptr.destructor h s) /\
  (forall w : weak_intrusive_ptr.t,
     (r <- weak_intrusive_ptr.release w ;; weak_intrusive_ptr.destructor (snd r)) s =
       Returned (weak_intrusive_ptr.mk NullType.singleton) s).
Proof.
  split.
  - intros [p]. unfold intrusive_ptr.release, intrusive_ptr.reclaim,
      intrusive_ptr.from_raw_dont_increase, intrusive_ptr.destructor.
    cbn [intrusive_ptr.target_]. split.
    + rewrite bind_ret. cbn [snd]. apply strong_reset_null.
    + rewrite bind_ret. cbn [fst snd]. rewrite bind_ret.
      erewrite bind_returned by apply strong_reset_null. reflexivity.
  - intros [p]. unfold weak_intrusive_ptr.release, weak_intrusive_ptr.destructor.
    rewrite bind_ret. cbn [snd]. apply weak_reset_null.
Qed.
